(** * A shallow embedding of the C-like compiler's typed AST (ast.hpp)

    The development follows the class hierarchy of [ast.hpp]:
    [Statement] <- [Expression] <- [ValueExpression] / [BooleanExpression]
    <- the concrete node classes.  Constructors of the C++ classes that do
    work (coercion of children, operator checks) are functions named [new]
    inside a module named after the class; the data a node holds is a
    constructor of the matching inductive type.  C++ exceptions and failed
    assertions are the [Throw] outcomes of a small error monad.

    Conventions.  Assertions are enabled: [assert(false)] ends the call with
    [assertion_failure].  A [shared_ptr] argument points to an object, except
    where the code says that it may be null ([ReturnStatement::exp], the
    expression of a [SwitchStatement] before [SetExpression]), which is an
    [option].  An [int] is a [Z].  What the header [translation.hpp] declares
    (locations, symbols, contexts, [Code]) is not part of [ast.hpp]; each
    such definition says what it follows. *)

From Stdlib Require Import ZArith String Ascii List Lia.
From Stdlib Require Import DecimalString DecimalNat.
From stdpp Require Import base option gmap strings list.

#[local] Set Warnings "-register-all".

Open Scope string_scope.

(** ** Source locations *)

Record Position := { line : nat; column : nat }.

Record Location := {
  filename : string;
  start_pos : Position;
  end_pos : Position
}.

Definition Position_le (p q : Position) : bool :=
  (line p <? line q)%nat || ((line p =? line q)%nat && (column p <=? column q)%nat).

(** Modelled from the spec: [Location] and its [operator+] are declared in a
    header that is not part of the sources at hand.  "Locations compose by
    taking the minimum start and maximum end." *)
Definition Location_add (a b : Location) : Location :=
  {| filename := filename a;
     start_pos := if Position_le (start_pos a) (start_pos b) then start_pos a else start_pos b;
     end_pos := if Position_le (end_pos a) (end_pos b) then end_pos b else end_pos a |}.

(** ** Exceptions and outcomes

    [CompileError] is the user-facing error (it carries a location and a
    message); [domain_error] is [std::domain_error]; [out_of_range] is the
    [std::out_of_range] of [std::map::at]; [assertion_failure] is a failed
    [assert(false)]. *)

Inductive exception : Type :=
| CompileError (location : Location) (message : string)
| domain_error (what : string)
| out_of_range
| assertion_failure.

Inductive outcome (A : Type) : Type :=
| Return (a : A)
| Throw (e : exception).

Arguments Return {A} a.
Arguments Throw {A} e.

#[global] Instance outcome_ret : MRet outcome := @Return.
#[global] Instance outcome_bind : MBind outcome :=
  fun A B f m => match m with Return a => f a | Throw e => Throw e end.

Definition returns {A} (m : outcome A) : bool :=
  match m with Return _ => true | Throw _ => false end.

(** Which exceptions are user diagnostics: only a [CompileError] is handed to
    the diagnostics callback [(location, severity, message)]. *)
Definition is_CompileError (e : exception) : bool :=
  match e with CompileError _ _ => true | _ => false end.

Definition throws_CompileError {A} (m : outcome A) : bool :=
  match m with Throw e => is_CompileError e | Return _ => false end.

(** ** Symbol types *)

(** Modelled from the spec: [SymbolType] is declared in [translation.hpp],
    which is absent; the variants are those of the spec's data model. *)
Inductive SymbolType : Type :=
| Int
| Array (length : nat)
| Bool
| Void
| StringType.

(** ** The AST

    Every class of [ast.hpp] that has a public constructor is a constructor
    here, the non-abstract base classes included ([Statement(loc)] is the
    empty statement; [Expression], [ValueExpression], [BooleanExpression] and
    [LValueExpression] have no pure virtual member, so they can be
    instantiated too: these are the [Bare...] constructors).  [OfValue],
    [OfBoolean] and [OfLValue] are the upcasts along the class hierarchy. *)

Inductive Expression : Type :=
| BareExpression (location : Location)
| OfValue (v : ValueExpression)
| OfBoolean (b : BooleanExpression)
| StringLiteral (value : string) (location : Location)

with ValueExpression : Type :=
| BareValueExpression (location : Location)
| ValueCast (exp : BooleanExpression)
| UnaryValueExpression (op : string) (exp : ValueExpression) (location : Location)
| BinaryValueExpression (op : string) (exp1 exp2 : ValueExpression) (location : Location)
| ConstantExpression (value : Z) (location : Location)
| OfLValue (l : LValueExpression)
| AssignmentExpression (left : LValueExpression) (exp : ValueExpression) (location : Location)
| FunctionCallExpression (name : string) (args : list ValueExpression) (location : Location)

with LValueExpression : Type :=
| BareLValueExpression (location : Location)
| VariableExpression (name : string) (location : Location)
| ArrayAccessExpression (name : string) (index : ValueExpression) (location : Location)

with BooleanExpression : Type :=
| BareBooleanExpression (location : Location)
| BooleanCast (exp : ValueExpression)
| UnaryBooleanExpression (op : string) (exp : BooleanExpression) (location : Location)
| BinaryBooleanExpression (op : string) (exp1 exp2 : BooleanExpression) (location : Location)
| RelationalExpression (op : string) (exp1 exp2 : ValueExpression) (location : Location).

(** The [location] member inherited from [Statement].  A cast node takes the
    location of the expression it wraps. *)
Fixpoint ValueExpression_location (v : ValueExpression) : Location :=
  match v with
  | BareValueExpression loc => loc
  | ValueCast exp => BooleanExpression_location exp
  | UnaryValueExpression _ _ loc => loc
  | BinaryValueExpression _ _ _ loc => loc
  | ConstantExpression _ loc => loc
  | OfLValue (BareLValueExpression loc) => loc
  | OfLValue (VariableExpression _ loc) => loc
  | OfLValue (ArrayAccessExpression _ _ loc) => loc
  | AssignmentExpression _ _ loc => loc
  | FunctionCallExpression _ _ loc => loc
  end
with BooleanExpression_location (b : BooleanExpression) : Location :=
  match b with
  | BareBooleanExpression loc => loc
  | BooleanCast exp => ValueExpression_location exp
  | UnaryBooleanExpression _ _ loc => loc
  | BinaryBooleanExpression _ _ _ loc => loc
  | RelationalExpression _ _ _ loc => loc
  end.

Definition LValueExpression_location (l : LValueExpression) : Location :=
  ValueExpression_location (OfLValue l).

Definition Expression_location (e : Expression) : Location :=
  match e with
  | BareExpression loc => loc
  | OfValue v => ValueExpression_location v
  | OfBoolean b => BooleanExpression_location b
  | StringLiteral _ loc => loc
  end.

Record VariableDeclaration : Type := {
  VariableDeclaration_name : string;
  VariableDeclaration_type : SymbolType;
  VariableDeclaration_location : Location
}.

Inductive Statement : Type :=
| EmptyStatement (location : Location)
| OfExpression (e : Expression)
| OfDeclaration (d : VariableDeclaration)
| BareJumpStatement (location : Location)
| ContinueStatement (location : Location)
| BreakStatement (location : Location)
| ReturnStatement (exp : option ValueExpression) (location : Location)
| OfBlock (b : StatementBlock)
| IfElseStatement (condition : BooleanExpression)
    (then_block else_block : StatementBlock) (location : Location)
| OfSwitch (s : SwitchStatement)
| WhileStatement (condition : BooleanExpression) (body : StatementBlock) (location : Location)
| ForStatement (initializer : list Statement) (condition : BooleanExpression)
    (step : Expression) (body : StatementBlock) (location : Location)

with StatementBlock : Type :=
| Block (statements : list Statement) (location : Location)

with SwitchStatement : Type :=
| Switch (exp : option ValueExpression) (case_values : list (option Z))
    (case_bodies : list (list Statement)) (location : Location).

Definition StatementBlock_location (b : StatementBlock) : Location :=
  match b with Block _ loc => loc end.

(** ** The category coercions *)

(** [std::dynamic_pointer_cast<ValueExpression>] and
    [std::dynamic_pointer_cast<BooleanExpression>]. *)
Definition as_ValueExpression (e : Expression) : option ValueExpression :=
  match e with OfValue v => Some v | _ => None end.

Definition as_BooleanExpression (e : Expression) : option BooleanExpression :=
  match e with OfBoolean b => Some b | _ => None end.

Module ValueCast.
Definition IfNeeded (exp : Expression) : outcome ValueExpression :=
  match as_ValueExpression exp with
  | Some value => Return value
  | None =>
    match as_BooleanExpression exp with
    | Some boolean => Return (ValueCast boolean)
    | None => Throw assertion_failure
    end
  end.
End ValueCast.

Module BooleanCast.
Definition IfNeeded (exp : Expression) : outcome BooleanExpression :=
  match as_BooleanExpression exp with
  | Some boolean => Return boolean
  | None =>
    match as_ValueExpression exp with
    | Some value => Return (BooleanCast value)
    | None => Throw assertion_failure
    end
  end.
End BooleanCast.

(** ** The node constructors

    A C++ constructor runs its base and member initialisers first (in
    declaration order: the coerced children, then [op]) and its body, the
    operator check, last.  The private [op_to_instruction] table of a class
    ([std::map<string, string>]) is in the module of the class. *)

Notation "a !=? b" := (negb (String.eqb a b)) (at level 70, no associativity).

Module UnaryValueExpression.
Definition op_to_instruction : gmap string string :=
  list_to_map [("+", "move"); ("-", "negu"); ("~", "not")].

Definition new (op : string) (exp : Expression) (loc : Location)
  : outcome ValueExpression :=
  let location := Location_add loc (Expression_location exp) in
  exp' ← ValueCast.IfNeeded exp;
  if (op !=? "+") && (op !=? "-") && (op !=? "~")
  then Throw (domain_error "invalid operator")
  else Return (UnaryValueExpression op exp' location).
End UnaryValueExpression.

Module BinaryValueExpression.
Definition op_to_instruction : gmap string string :=
  list_to_map [("+", "addu"); ("-", "subu"); ("*", "mul"); ("/", "divu");
               ("&", "and"); ("|", "or"); ("^", "xor")].

Definition new (op : string) (exp1 exp2 : Expression) : outcome ValueExpression :=
  let location := Location_add (Expression_location exp1) (Expression_location exp2) in
  exp1' ← ValueCast.IfNeeded exp1;
  exp2' ← ValueCast.IfNeeded exp2;
  if (op !=? "+") && (op !=? "-") && (op !=? "*") && (op !=? "/")
     && (op !=? "&") && (op !=? "|") && (op !=? "^")
  then Throw (domain_error "invalid operator")
  else Return (BinaryValueExpression op exp1' exp2' location).
End BinaryValueExpression.

Module ArrayAccessExpression.
Definition new (name : string) (index : Expression) (loc : Location)
  : outcome LValueExpression :=
  index' ← ValueCast.IfNeeded index;
  Return (ArrayAccessExpression name index' loc).
End ArrayAccessExpression.

Module AssignmentExpression.
Definition new (left : LValueExpression) (exp : Expression) : outcome ValueExpression :=
  let location := Location_add (LValueExpression_location left) (Expression_location exp) in
  exp' ← ValueCast.IfNeeded exp;
  Return (AssignmentExpression left exp' location).
End AssignmentExpression.

Module UnaryBooleanExpression.
Definition new (op : string) (exp : Expression) (loc : Location)
  : outcome BooleanExpression :=
  let location := Location_add loc (Expression_location exp) in
  exp' ← BooleanCast.IfNeeded exp;
  if op !=? "!"
  then Throw (domain_error "invalid operator")
  else Return (UnaryBooleanExpression op exp' location).
End UnaryBooleanExpression.

Module BinaryBooleanExpression.
Definition new (op : string) (exp1 exp2 : Expression) : outcome BooleanExpression :=
  let location := Location_add (Expression_location exp1) (Expression_location exp2) in
  exp1' ← BooleanCast.IfNeeded exp1;
  exp2' ← BooleanCast.IfNeeded exp2;
  if (op !=? "&&") && (op !=? "||")
  then Throw (domain_error "invalid operator")
  else Return (BinaryBooleanExpression op exp1' exp2' location).
End BinaryBooleanExpression.

Module RelationalExpression.
Definition op_to_instruction : gmap string string :=
  list_to_map [("==", "beq"); ("!=", "bne"); (">", "bgt"); (">=", "bge");
               ("<", "blt"); ("<=", "ble")].

Definition new (op : string) (exp1 exp2 : Expression) : outcome BooleanExpression :=
  let location := Location_add (Expression_location exp1) (Expression_location exp2) in
  exp1' ← ValueCast.IfNeeded exp1;
  exp2' ← ValueCast.IfNeeded exp2;
  if (op !=? "==") && (op !=? "!=") && (op !=? "<=") && (op !=? ">=")
     && (op !=? "<") && (op !=? ">")
  then Throw (domain_error "invalid operator")
  else Return (RelationalExpression op exp1' exp2' location).
End RelationalExpression.

Module ReturnStatement.
(** [ReturnStatement(loc)]: no expression, [exp] stays null. *)
Definition new_void (loc : Location) : Statement := ReturnStatement None loc.

(** [ReturnStatement(exp, loc)]. *)
Definition new (exp : Expression) (loc : Location) : outcome Statement :=
  exp' ← ValueCast.IfNeeded exp;
  Return (ReturnStatement (Some exp') loc).
End ReturnStatement.

Module IfElseStatement.
Definition new (condition : Expression) (then_block else_block : StatementBlock)
    (loc : Location) : outcome Statement :=
  condition' ← BooleanCast.IfNeeded condition;
  Return (IfElseStatement condition' then_block else_block loc).
End IfElseStatement.

Module WhileStatement.
Definition new (condition : Expression) (body : StatementBlock) (loc : Location)
  : outcome Statement :=
  condition' ← BooleanCast.IfNeeded condition;
  Return (WhileStatement condition' body loc).
End WhileStatement.

Module ForStatement.
Definition new (initializer : list Statement) (condition step : Expression)
    (body : StatementBlock) (loc : Location) : outcome Statement :=
  let location := Location_add loc (StatementBlock_location body) in
  condition' ← BooleanCast.IfNeeded condition;
  Return (ForStatement initializer condition' step body location).
End ForStatement.

Module SwitchStatement.
(** [SwitchStatement(loc)]: no expression yet, no cases. *)
Definition new (loc : Location) : SwitchStatement := Switch None [] [] loc.

Definition SetExpression (this : SwitchStatement) (exp : Expression)
  : outcome SwitchStatement :=
  match this with
  | Switch _ case_values case_bodies loc =>
    exp' ← ValueCast.IfNeeded exp;
    Return (Switch (Some exp') case_values case_bodies loc)
  end.
End SwitchStatement.

(** ** Code fragments *)

Definition nl : string := String (ascii_of_nat 10) EmptyString.

(** Modelled from the spec: [tab] is a constant of [translation.hpp], which is
    absent; the text section is "tab-indented". *)
Definition tab : string := String (ascii_of_nat 9) EmptyString.
Definition dquote : string := String (ascii_of_nat 34) EmptyString.

(** Modelled from the spec: [Code] is declared in [translation.hpp], which is
    absent.  "An append-only pair of string buffers: a text section and a data
    section"; adding a string to a [Code] appends to its text. *)
Record Code := { text : string; data : string }.

Definition Code_empty : Code := {| text := EmptyString; data := EmptyString |}.

Definition Code_add (a b : Code) : Code :=
  {| text := text a +:+ text b; data := data a +:+ data b |}.

Definition Code_add_text (a : Code) (s : string) : Code :=
  {| text := text a +:+ s; data := data a |}.

(** ** Symbols and contexts *)

(** Modelled from the spec: the [Symbol] classes are declared in
    [translation.hpp], which is absent.  A symbol is an "abstract capability:
    I know how to load my value into a named register and I know how to store
    a named register's value into my slot"; the interface is all that
    [ast.hpp] uses of a symbol. *)
Class SymbolOps (Symbol : Type) := {
  LoadValue : Symbol -> string -> outcome Code;
  SaveValue : Symbol -> string -> outcome Code
}.

(** Modelled from the spec: the contexts are declared in [translation.hpp],
    which is absent.  The [GlobalContext] "mints fresh labels from a monotone
    counter (L0, L1, ...)" and "holds the global symbol table"; a
    [LocalContext] is "chained to a parent [LocalContext]" and "holds a local
    name -> Symbol map"; an [ExpressionContext] "holds the free-temporary
    registers ($t0..$t9)".  The global context is shared by reference by all
    the contexts below it: it is the state every emitting function threads. *)
Record GlobalContext (Symbol : Type) := {
  label_counter : nat;
  global_symbols : gmap string Symbol
}.
Arguments label_counter {Symbol} _.
Arguments global_symbols {Symbol} _.

(** The chain of block scopes, innermost first. *)
Record LocalContext (Symbol : Type) := {
  scopes : list (gmap string Symbol)
}.
Arguments scopes {Symbol} _.

Record ExpressionContext (Symbol : Type) := {
  local_context : LocalContext Symbol;
  free_temporaries : list nat
}.
Arguments local_context {Symbol} _.
Arguments free_temporaries {Symbol} _.

Definition label_name (n : nat) : string :=
  "L" +:+ NilEmpty.string_of_uint (Nat.to_uint n).

Section Contexts.
Context {Symbol : Type}.

(** Emitting functions: they read and update the shared [GlobalContext] and
    may throw. *)
Definition M (A : Type) : Type :=
  GlobalContext Symbol -> outcome A * GlobalContext Symbol.

Definition M_ret {A} (a : A) : M A := fun g => (Return a, g).

Definition M_bind {A B} (m : M A) (f : A -> M B) : M B :=
  fun g => match m g with
           | (Return a, g') => f a g'
           | (Throw e, g') => (Throw e, g')
           end.

Definition M_throw {A} (e : exception) : M A := fun g => (Throw e, g).

Definition M_lift {A} (m : outcome A) : M A := fun g => (m, g).

Definition NewLabel : M string :=
  fun g => (Return (label_name (label_counter g)),
            {| label_counter := S (label_counter g);
               global_symbols := global_symbols g |}).

(** [ExpressionContext inner = ctx]. *)
Definition ExpressionContext_of (ctx : LocalContext Symbol) : ExpressionContext Symbol :=
  {| local_context := ctx; free_temporaries := seq 0 10 |}.

(** Modelled from the spec: "Scope lookup for name n inside a LocalContext
    returns the nearest binding; otherwise the global binding; otherwise
    nullptr". *)
Fixpoint lookup_chain (chain : list (gmap string Symbol)) (name : string)
  : option Symbol :=
  match chain with
  | [] => None
  | scope :: outer =>
    match scope !! name with
    | Some symbol => Some symbol
    | None => lookup_chain outer name
    end
  end.

Definition LocalContext_lookup (ctx : LocalContext Symbol) (name : string)
  : M (option Symbol) :=
  fun g => (Return (match lookup_chain (scopes ctx) name with
                    | Some symbol => Some symbol
                    | None => global_symbols g !! name
                    end), g).
End Contexts.

Arguments M Symbol A : clear implicits.

Notation "'call' x <- m ;; k" := (M_bind m (fun x => k))
  (at level 10, x name, m at level 99, k at level 200).

(** ** String literals *)

Module StringLiteral.
(** [StringLiteral::Evaluate] is [assert(false)]. *)
Definition Evaluate {Symbol : Type} (value : string) (location : Location)
    (ctx : ExpressionContext Symbol) : M Symbol (Code * Symbol) :=
  M_throw assertion_failure.
End StringLiteral.

(** ** Emitting boolean expressions and assignments *)

Module BooleanExpression.
Section Emit.
Context {Symbol : Type}.

(** The [Evaluate] overrides of the four concrete boolean classes are
    defined outside [ast.hpp]. *)
Variable Evaluate_override :
  BooleanExpression -> ExpressionContext Symbol -> string -> string -> M Symbol Code.

(** Virtual dispatch of [Evaluate]: [BooleanExpression::Evaluate] itself is
    [assert(false)]. *)
Definition Evaluate (this : BooleanExpression) (ctx : ExpressionContext Symbol)
    (true_label false_label : string) : M Symbol Code :=
  match this with
  | BareBooleanExpression _ => M_throw assertion_failure
  | _ => Evaluate_override this ctx true_label false_label
  end.

Definition Compile (this : BooleanExpression) (ctx : LocalContext Symbol)
  : M Symbol Code :=
  call label <- NewLabel ;;
  let inner := ExpressionContext_of ctx in
  call code <- Evaluate this inner label label ;;
  M_ret (Code_add_text code (tab +:+ label +:+ ":" +:+ nl)).
End Emit.
End BooleanExpression.

Module VariableExpression.
Section Emit.
Context {Symbol : Type} `{!SymbolOps Symbol}.

Definition Assign (name : string) (location : Location)
    (ctx : ExpressionContext Symbol) (value : Symbol) : M Symbol Code :=
  call symbol <- LocalContext_lookup (local_context ctx) name ;;
  match symbol with
  | None =>
      M_throw (CompileError location ("undefined symbol " +:+ dquote +:+ name +:+ dquote))
  | Some symbol =>
      call code <- M_lift (LoadValue value "$v0") ;;
      call save <- M_lift (SaveValue symbol "$v0") ;;
      M_ret (Code_add code save)
  end.
End Emit.
End VariableExpression.

Module LValueExpression.
(** The member function that a call [left->Assign(ctx, value)] runs:
    [LValueExpression::Assign] (the default, [assert(false)]) or one of the
    two overrides. *)
Inductive Assign_body : Type :=
| default_Assign
| VariableExpression_Assign
| ArrayAccessExpression_Assign.

Definition Assign_dispatch (this : LValueExpression) : Assign_body :=
  match this with
  | BareLValueExpression _ => default_Assign
  | VariableExpression _ _ => VariableExpression_Assign
  | ArrayAccessExpression _ _ _ => ArrayAccessExpression_Assign
  end.

Section Emit.
Context {Symbol : Type} `{!SymbolOps Symbol}.

(** [ArrayAccessExpression::Assign] is defined outside [ast.hpp]. *)
Variable ArrayAccessExpression_Assign_body :
  string -> ValueExpression -> Location ->
  ExpressionContext Symbol -> Symbol -> M Symbol Code.

Definition Assign (this : LValueExpression) (ctx : ExpressionContext Symbol)
    (value : Symbol) : M Symbol Code :=
  match this with
  | BareLValueExpression _ => M_throw assertion_failure
  | VariableExpression name loc => VariableExpression.Assign name loc ctx value
  | ArrayAccessExpression name index loc =>
      ArrayAccessExpression_Assign_body name index loc ctx value
  end.
End Emit.
End LValueExpression.

(** ** Definitions *)

Record FunctionDefinition : Type := {
  name : string;
  type : SymbolType;
  params : list VariableDeclaration;
  body : StatementBlock;
  location : Location
}.

Record FieldDefinition : Type := {
  field_name : string;
  field_type : SymbolType;
  has_value : bool;
  value : Z;
  literal : string;
  field_location : Location
}.

Inductive Definition_ : Type :=
| OfField (f : FieldDefinition)
| OfFunction (f : FunctionDefinition)
| MainFunctionDefinition (base : FunctionDefinition).

Module FunctionDefinition.
(** Modelled from the spec: the constructor of [FunctionDefinition] is only
    declared in [ast.hpp].  A "FunctionDefinition(name, returnType, params[],
    body)" holds what it was constructed with. *)
Definition new (name : string) (type : SymbolType) (params : list VariableDeclaration)
    (body : StatementBlock) (loc : Location) : FunctionDefinition :=
  {| name := name; type := type; params := params; body := body; location := loc |}.
End FunctionDefinition.

Module MainFunctionDefinition.
Definition new (type : SymbolType) (body : StatementBlock) (loc : Location)
  : Definition_ :=
  MainFunctionDefinition (FunctionDefinition.new "main" type [] body loc).

(** The [FunctionDefinition] subobject of a [Definition]. *)
Definition as_FunctionDefinition (d : Definition_) : option FunctionDefinition :=
  match d with
  | OfField _ => None
  | OfFunction f => Some f
  | MainFunctionDefinition f => Some f
  end.
End MainFunctionDefinition.

(** ** Emitted instructions and the concrete symbols

    The lines of the text section that symbols emit, kept structured;
    [render] is the line as text. *)

Inductive address : Type :=
| at_label (label : string)
| at_offset (offset : Z) (base : string).

Inductive instruction : Type :=
| li (rd : string) (imm : Z)
| la (rd : string) (a : address)
| lw (rd : string) (a : address)
| sw (rs : string) (a : address)
| op2 (mnemonic : string) (rd rs : string)
| op3 (mnemonic : string) (rd rs rt : string).

Definition render_Z (z : Z) : string := NilZero.string_of_int (Z.to_int z).

Definition render_address (a : address) : string :=
  match a with
  | at_label label => label
  | at_offset offset base => render_Z offset +:+ "(" +:+ base +:+ ")"
  end.

Definition render (i : instruction) : string :=
  match i with
  | li rd imm => tab +:+ "li " +:+ rd +:+ ", " +:+ render_Z imm +:+ nl
  | la rd a => tab +:+ "la " +:+ rd +:+ ", " +:+ render_address a +:+ nl
  | lw rd a => tab +:+ "lw " +:+ rd +:+ ", " +:+ render_address a +:+ nl
  | sw rs a => tab +:+ "sw " +:+ rs +:+ ", " +:+ render_address a +:+ nl
  | op2 m rd rs => tab +:+ m +:+ " " +:+ rd +:+ ", " +:+ rs +:+ nl
  | op3 m rd rs rt => tab +:+ m +:+ " " +:+ rd +:+ ", " +:+ rs +:+ ", " +:+ rt +:+ nl
  end.

Definition Code_of (l : list instruction) : Code :=
  {| text := foldr (fun i s => render i +:+ s) EmptyString l; data := EmptyString |}.

Definition temporary_name (index : nat) : string :=
  "$t" +:+ NilEmpty.string_of_uint (Nat.to_uint index).

(** Modelled from the spec: the [Symbol] classes are declared in
    [translation.hpp], which is absent.  The variants and what each loads and
    saves are the table of the spec's data model: a global is [lw]/[sw] at its
    label, a local or a parameter [lw]/[sw] at its offset from [$fp], an array
    base loads its address with [la], a literal loads with [li], a temporary
    with [move] from and to [$ti].  An array base and a literal have no save
    ("unreachable by construction"): here it fails an assertion. *)
Inductive ConcreteSymbol : Type :=
| GlobalVariable (label : string) (type : SymbolType)
| LocalVariable (offset : Z) (type : SymbolType)
| ParameterVariable (offset : Z) (type : SymbolType)
| ArrayBase (base : address) (element : SymbolType) (length : nat)
| Literal (value : Z)
| Temporary (index : nat) (type : SymbolType).

Definition LoadValue_lines (s : ConcreteSymbol) (reg : string) : list instruction :=
  match s with
  | GlobalVariable label _ => [lw reg (at_label label)]
  | LocalVariable offset _ => [lw reg (at_offset offset "$fp")]
  | ParameterVariable offset _ => [lw reg (at_offset offset "$fp")]
  | ArrayBase base _ _ => [la reg base]
  | Literal value => [li reg value]
  | Temporary index _ => [op2 "move" reg (temporary_name index)]
  end.

Definition SaveValue_lines (s : ConcreteSymbol) (reg : string)
  : outcome (list instruction) :=
  match s with
  | GlobalVariable label _ => Return [sw reg (at_label label)]
  | LocalVariable offset _ => Return [sw reg (at_offset offset "$fp")]
  | ParameterVariable offset _ => Return [sw reg (at_offset offset "$fp")]
  | ArrayBase _ _ _ => Throw assertion_failure
  | Literal _ => Throw assertion_failure
  | Temporary index _ => Return [op2 "move" (temporary_name index) reg]
  end.

#[global] Instance ConcreteSymbol_ops : SymbolOps ConcreteSymbol := {
  LoadValue s reg := Return (Code_of (LoadValue_lines s reg));
  SaveValue s reg := lines ← SaveValue_lines s reg; Return (Code_of lines)
}.

(** ** Vocabulary of the properties *)

(** The two expression categories; a [StringLiteral] and a bare [Expression]
    have neither. *)
Definition has_category (e : Expression) : bool :=
  match e with
  | OfValue _ | OfBoolean _ => true
  | BareExpression _ | StringLiteral _ _ => false
  end.

(** What a value position holds for a child [exp]: the child itself when it
    is a value expression, one [ValueCast] around it when it is boolean. *)
Definition coerced_to_value (exp : Expression) (stored : ValueExpression) : Prop :=
  match exp with
  | OfValue v => stored = v
  | OfBoolean b => stored = ValueCast b
  | _ => False
  end.

(** What a boolean position holds for a child [exp]: the child itself when it
    is a boolean expression, one [BooleanCast] around it when it is a value. *)
Definition coerced_to_boolean (exp : Expression) (stored : BooleanExpression) : Prop :=
  match exp with
  | OfBoolean b => stored = b
  | OfValue v => stored = BooleanCast v
  | _ => False
  end.

(** A name resolves to the nearest binding of the local chain, else to the
    global binding. *)
Definition resolves {Symbol : Type} (g : GlobalContext Symbol) (ctx : LocalContext Symbol)
    (name : string) (symbol : Symbol) : Prop :=
  lookup_chain (scopes ctx) name = Some symbol
  \/ (lookup_chain (scopes ctx) name = None /\ global_symbols g !! name = Some symbol).

(** The operator names of each operator class. *)
Definition unary_value_operators : list string := ["+"; "-"; "~"].
Definition binary_value_operators : list string := ["+"; "-"; "*"; "/"; "&"; "|"; "^"].
Definition unary_boolean_operators : list string := ["!"].
Definition binary_boolean_operators : list string := ["&&"; "||"].
Definition relational_operators : list string := ["=="; "!="; "<="; ">="; "<"; ">"].

(** ** Sample inputs *)

Definition sample_location : Location :=
  {| filename := "main.c";
     start_pos := {| line := 1; column := 1 |};
     end_pos := {| line := 1; column := 8 |} |}.

(** The comparison [1 < 2]. *)
Definition sample_comparison : BooleanExpression :=
  RelationalExpression "<"
    (ConstantExpression 1 sample_location) (ConstantExpression 2 sample_location)
    (Location_add sample_location sample_location).

(** A stand-in for the [Evaluate] overrides of the boolean classes: a branch
    to the true label and a jump to the false label. *)
Definition sample_emitter (this : BooleanExpression)
    (ctx : ExpressionContext ConcreteSymbol) (true_label false_label : string)
  : M ConcreteSymbol Code :=
  M_ret {| text := tab +:+ "beq $t0, $t1, " +:+ true_label +:+ nl
                   +:+ tab +:+ "j " +:+ false_label +:+ nl;
           data := EmptyString |}.

(** A block that declares [x], an empty block nested in it, and the global
    [y]. *)
Definition sample_scopes : LocalContext ConcreteSymbol :=
  {| scopes := [∅; {[ "x" := LocalVariable (-4) Int ]}] |}.

Definition sample_globals : GlobalContext ConcreteSymbol :=
  {| label_counter := 0; global_symbols := {[ "y" := GlobalVariable "y" Int ]} |}.

(** ** The command line (main.cpp)

    [main] reads its arguments into a [Driver], then scans or parses.  The
    class [Driver] is declared in [driver.hpp], which is not part of the
    sources at hand: the record below has the four members that [main]
    writes, the driver [main] starts from is an argument, and so are
    [Driver::scan] and [Driver::parse]. *)

Module Main.
Record Driver : Type := {
  trace_parsing : bool;
  trace_scanning : bool;
  tokens_out_filename : string;
  input_filename : string
}.

Definition set_trace_parsing (d : Driver) (b : bool) : Driver :=
  {| trace_parsing := b; trace_scanning := trace_scanning d;
     tokens_out_filename := tokens_out_filename d; input_filename := input_filename d |}.

Definition set_trace_scanning (d : Driver) (b : bool) : Driver :=
  {| trace_parsing := trace_parsing d; trace_scanning := b;
     tokens_out_filename := tokens_out_filename d; input_filename := input_filename d |}.

Definition set_tokens_out_filename (d : Driver) (f : string) : Driver :=
  {| trace_parsing := trace_parsing d; trace_scanning := trace_scanning d;
     tokens_out_filename := f; input_filename := input_filename d |}.

Definition set_input_filename (d : Driver) (f : string) : Driver :=
  {| trace_parsing := trace_parsing d; trace_scanning := trace_scanning d;
     tokens_out_filename := tokens_out_filename d; input_filename := f |}.

(** What [main] returns; [<< std::endl] writes a newline. *)
Inductive exit_status : Type := EXIT_SUCCESS | EXIT_FAILURE.

(** What [main] itself writes on [std::cout] and [std::cerr]. *)
Record console : Type := { cout : string; cerr : string }.

(** A call of [driver.scan()] or [driver.parse()] as [main] sees it: it
    returns (a [result], for [parse]), or throws a [std::exception] with a
    [what()], or ends in a way that [main] does not catch (an exception of
    another type, a failed assertion). *)
Inductive ran : Type :=
| returned (result : Z)
| threw (what : string)
| uncaught.

Definition usage : string :=
  "Usage: parser [filename] [-scan-only]" +:+ nl
  +:+ "Do not specify filename to read from standard input" +:+ nl.

(** The outcome of the argument loop: the driver as configured and what was
    written on [std::cout], or the early [return EXIT_FAILURE] of a [-t]
    that is the last argument. *)
Inductive arguments_result : Type :=
| accepted (driver : Driver) (out : string)
| missing_filename (out : string).

(** The loop [for (int i = 1; i < argc; i++)] over [argv[1]], ...,
    [argv[argc - 1]].  The test for [-h] is an [if] of its own: the chain of
    [else if] that follows it sees [-h] too. *)
Fixpoint arguments (argv : list string) (driver : Driver) (out : string)
  : arguments_result :=
  match argv with
  | [] => accepted driver out
  | arg :: rest =>
    let out := if arg =? "-h" then out +:+ usage else out in
    if arg =? "-p" then arguments rest (set_trace_parsing driver true) out
    else if arg =? "-s" then arguments rest (set_trace_scanning driver true) out
    else if arg =? "-nt" then arguments rest (set_tokens_out_filename driver EmptyString) out
    else if arg =? "-t" then
      match rest with
      | file :: rest => arguments rest (set_tokens_out_filename driver file) out
      | [] => missing_filename out
      end
    else if arg =? "-" then arguments rest (set_input_filename driver EmptyString) out
    else arguments rest (set_input_filename driver arg) out
  end.

Section Main.
(** The macro [_SCAN_ONLY], the [Driver] that [Driver driver;] constructs and
    the two member functions of [driver.hpp]. *)
Variable scan_only : bool.
Variable initial : Driver.
Variable scan : Driver -> ran.
Variable parse : Driver -> ran.

(** What follows the loop: scan, or parse, and turn the result into the
    exit status.  [None] for the status: [main] did not return. *)
Definition run (driver : Driver) (out : string) : console * option exit_status :=
  if scan_only then
    match scan driver with
    | returned _ => ({| cout := out; cerr := EmptyString |}, Some EXIT_SUCCESS)
    | threw what => ({| cout := out; cerr := what +:+ nl |}, Some EXIT_FAILURE)
    | uncaught => ({| cout := out; cerr := EmptyString |}, None)
    end
  else
    match parse driver with
    | returned result =>
        ({| cout := out; cerr := EmptyString |},
         Some (if (result =? 0)%Z then EXIT_SUCCESS else EXIT_FAILURE))
    | threw what => ({| cout := out; cerr := what +:+ nl |}, Some EXIT_FAILURE)
    | uncaught => ({| cout := out; cerr := EmptyString |}, None)
    end.

Definition main (argv : list string) : console * option exit_status :=
  match arguments argv initial EmptyString with
  | missing_filename out =>
      ({| cout := out; cerr := "Missing filename for argument -t" +:+ nl |},
       Some EXIT_FAILURE)
  | accepted driver out => run driver out
  end.
End Main.

(** The arguments that the [else if] chain treats as options; every other
    argument, [-h] included, is taken as the input file name. *)
Definition options : list string := ["-p"; "-s"; "-nt"; "-t"; "-"].
End Main.

(** A driver and two command lines to try the properties on. *)
Definition sample_driver : Main.Driver :=
  {| Main.trace_parsing := false; Main.trace_scanning := false;
     Main.tokens_out_filename := "tokens.txt"; Main.input_filename := EmptyString |}.

Definition sample_parse (d : Main.Driver) : Main.ran :=
  if Main.input_filename d =? "prog.c" then Main.returned 0 else Main.threw "cannot open file".

(** ** The tree dumps ([Tree])

    Every node class has a [Tree(int indent = 0)] that returns the node and
    its children as indented text, one line per node.  A class that does not
    define [Tree] inherits [Statement::Tree], the line [empty statement].
    The indentation and [indent_length] (a constant of [translation.hpp]) are
    natural numbers here. *)

(** [std::string(n, ' ')]. *)
Fixpoint spaces (n : nat) : string :=
  match n with
  | O => EmptyString
  | S n => String " "%char (spaces n)
  end.

(** What a [Tree] on a statement does: it returns text, or it reaches
    [assert(false)] ([StringLiteral::Tree]), or it dereferences a null
    pointer or indexes a vector past its end, which is undefined. *)
Inductive printed : Type :=
| Text (str : string)
| assertion_failed
| undefined_behaviour.

Section PrintEach.
Context {A : Type}.
Variable Tree : A -> printed.

(** [for (auto s : l) str += s->Tree(...)]. *)
Fixpoint print_each (l : list A) (str : string) : printed :=
  match l with
  | [] => Text str
  | a :: l =>
    match Tree a with
    | Text t => print_each l (str +:+ t)
    | failure => failure
    end
  end.
End PrintEach.

(** [str += p], where evaluating [p] may fail. *)
Definition append_printed (str : string) (p : printed) : printed :=
  match p with
  | Text t => Text (str +:+ t)
  | failure => failure
  end.

Section Tree.
Variable indent_length : nat.

(** [SymbolType::Name] is defined outside [ast.hpp]. *)
Variable SymbolType_Name : SymbolType -> string.

Fixpoint ValueExpression_Tree (this : ValueExpression) (indent : nat) {struct this}
  : string :=
  match this with
  | BareValueExpression _ => spaces indent +:+ "empty statement" +:+ nl
  | ValueCast exp =>
      spaces indent +:+ "cast to value" +:+ nl
      +:+ BooleanExpression_Tree exp (indent + indent_length)
  | UnaryValueExpression op exp _ =>
      spaces indent +:+ "unary operator " +:+ op +:+ nl
      +:+ ValueExpression_Tree exp (indent + indent_length)
  | BinaryValueExpression op exp1 exp2 _ =>
      spaces indent +:+ "binary operator " +:+ op +:+ nl
      +:+ ValueExpression_Tree exp1 (indent + indent_length)
      +:+ ValueExpression_Tree exp2 (indent + indent_length)
  | ConstantExpression value _ => spaces indent +:+ render_Z value +:+ nl
  | OfLValue l => LValueExpression_Tree l indent
  | AssignmentExpression target exp _ =>
      spaces indent +:+ "assignment =" +:+ nl
      +:+ LValueExpression_Tree target (indent + indent_length)
      +:+ ValueExpression_Tree exp (indent + indent_length)
  | FunctionCallExpression name args _ =>
      foldl (fun str a => str +:+ ValueExpression_Tree a (indent + indent_length))
        (spaces indent +:+ "call " +:+ name +:+ nl) args
  end
with LValueExpression_Tree (this : LValueExpression) (indent : nat) {struct this}
  : string :=
  match this with
  | BareLValueExpression _ => spaces indent +:+ "empty statement" +:+ nl
  | VariableExpression name _ => spaces indent +:+ name +:+ nl
  | ArrayAccessExpression name index _ =>
      spaces indent +:+ name +:+ "[ ]" +:+ nl
      +:+ ValueExpression_Tree index (indent + indent_length)
  end
with BooleanExpression_Tree (this : BooleanExpression) (indent : nat) {struct this}
  : string :=
  match this with
  | BareBooleanExpression _ => spaces indent +:+ "empty statement" +:+ nl
  | BooleanCast exp =>
      spaces indent +:+ "cast to bool" +:+ nl
      +:+ ValueExpression_Tree exp (indent + indent_length)
  | UnaryBooleanExpression op exp _ =>
      spaces indent +:+ "unary operator " +:+ op +:+ nl
      +:+ BooleanExpression_Tree exp (indent + indent_length)
  | BinaryBooleanExpression op exp1 exp2 _ =>
      spaces indent +:+ "binary operator " +:+ op +:+ nl
      +:+ BooleanExpression_Tree exp1 (indent + indent_length)
      +:+ BooleanExpression_Tree exp2 (indent + indent_length)
  | RelationalExpression op exp1 exp2 _ =>
      spaces indent +:+ "relational operator " +:+ op +:+ nl
      +:+ ValueExpression_Tree exp1 (indent + indent_length)
      +:+ ValueExpression_Tree exp2 (indent + indent_length)
  end.

(** [Tree] on a pointer to [Expression]: a [StringLiteral] asserts, a bare
    [Expression] inherits [Statement::Tree]. *)
Definition Expression_Tree (this : Expression) (indent : nat) : printed :=
  match this with
  | BareExpression _ => Text (spaces indent +:+ "empty statement" +:+ nl)
  | OfValue v => Text (ValueExpression_Tree v indent)
  | OfBoolean b => Text (BooleanExpression_Tree b indent)
  | StringLiteral _ _ => assertion_failed
  end.

Definition VariableDeclaration_Tree (this : VariableDeclaration) (indent : nat) : string :=
  spaces indent +:+ VariableDeclaration_name this +:+ " : "
  +:+ SymbolType_Name (VariableDeclaration_type this) +:+ nl.

(** The line that opens case [i] of a switch: [case_values[i]] is null for
    the default case. *)
Definition case_line (indent : nat) (case_value : option Z) : string :=
  spaces (indent + indent_length)
  +:+ match case_value with
      | None => "default"
      | Some v => "case " +:+ render_Z v
      end
  +:+ nl.

Section Cases.
Variable Tree : Statement -> printed.
Variable indent : nat.

(** The loop of [SwitchStatement::Tree] over [i < case_bodies.size()]; it
    reads [case_values[i]] whether or not [case_values] is that long. *)
Fixpoint print_cases (case_values : list (option Z)) (case_bodies : list (list Statement))
    (str : string) {struct case_bodies} : printed :=
  match case_bodies with
  | [] => Text str
  | case_body :: case_bodies =>
    match case_values with
    | [] => undefined_behaviour
    | case_value :: case_values =>
      match print_each Tree case_body (str +:+ case_line indent case_value) with
      | Text str => print_cases case_values case_bodies str
      | failure => failure
      end
    end
  end.
End Cases.

Fixpoint Statement_Tree (this : Statement) (indent : nat) {struct this} : printed :=
  match this with
  | EmptyStatement _ => Text (spaces indent +:+ "empty statement" +:+ nl)
  | OfExpression e => Expression_Tree e indent
  | OfDeclaration d => Text (VariableDeclaration_Tree d indent)
  | BareJumpStatement _ => Text (spaces indent +:+ "empty statement" +:+ nl)
  | ContinueStatement _ => Text (spaces indent +:+ "continue" +:+ nl)
  | BreakStatement _ => Text (spaces indent +:+ "break" +:+ nl)
  | ReturnStatement exp _ =>
      Text (spaces indent +:+ "return" +:+ nl
            +:+ match exp with
                | None => EmptyString
                | Some exp => ValueExpression_Tree exp (indent + indent_length)
                end)
  | OfBlock b => StatementBlock_Tree b indent
  | IfElseStatement condition then_block else_block _ =>
      let str := spaces indent +:+ "if" +:+ nl
                 +:+ spaces (indent + indent_length) +:+ "condition" +:+ nl
                 +:+ BooleanExpression_Tree condition (indent + 2 * indent_length)
                 +:+ spaces (indent + indent_length) +:+ "then" +:+ nl in
      match append_printed str (StatementBlock_Tree then_block (indent + 2 * indent_length)) with
      | Text str =>
          append_printed (str +:+ spaces (indent + indent_length) +:+ "else" +:+ nl)
            (StatementBlock_Tree else_block (indent + 2 * indent_length))
      | failure => failure
      end
  | OfSwitch s => SwitchStatement_Tree s indent
  | WhileStatement condition body _ =>
      append_printed
        (spaces indent +:+ "while" +:+ nl
         +:+ spaces (indent + indent_length) +:+ "condition" +:+ nl
         +:+ BooleanExpression_Tree condition (indent + 2 * indent_length)
         +:+ spaces (indent + indent_length) +:+ "do" +:+ nl)
        (StatementBlock_Tree body (indent + 2 * indent_length))
  | ForStatement initializer condition step body _ =>
      match print_each (fun i => Statement_Tree i (indent + 2 * indent_length)) initializer
              (spaces indent +:+ "for" +:+ nl
               +:+ spaces (indent + indent_length) +:+ "init" +:+ nl) with
      | Text str =>
        match append_printed
                (str +:+ spaces (indent + indent_length) +:+ "condition" +:+ nl
                 +:+ BooleanExpression_Tree condition (indent + 2 * indent_length)
                 +:+ spaces (indent + indent_length) +:+ "step" +:+ nl)
                (Expression_Tree step (indent + 2 * indent_length)) with
        | Text str =>
            append_printed (str +:+ spaces (indent + indent_length) +:+ "do" +:+ nl)
              (StatementBlock_Tree body (indent + 2 * indent_length))
        | failure => failure
        end
      | failure => failure
      end
  end
with StatementBlock_Tree (this : StatementBlock) (indent : nat) {struct this} : printed :=
  match this with
  | Block statements _ =>
      print_each (fun s => Statement_Tree s (indent + indent_length)) statements
        (spaces indent +:+ "block" +:+ nl)
  end
with SwitchStatement_Tree (this : SwitchStatement) (indent : nat) {struct this} : printed :=
  match this with
  | Switch exp case_values case_bodies _ =>
    match exp with
    | None => undefined_behaviour
    | Some exp =>
        print_cases (fun s => Statement_Tree s (indent + 2 * indent_length)) indent
          case_values case_bodies
          (spaces indent +:+ "switch" +:+ nl
           +:+ spaces (indent + indent_length) +:+ "on" +:+ nl
           +:+ ValueExpression_Tree exp (indent + 2 * indent_length))
    end
  end.

(** Modelled from the spec: [is_value_type] is defined outside [ast.hpp]; it
    "returns true for Int and Bool". *)
Definition is_value_type (t : SymbolType) : bool :=
  match t with
  | Int | Bool => true
  | _ => false
  end.

(** A field without a value gets no end of line. *)
Definition FieldDefinition_Tree (this : FieldDefinition) (indent : nat) : string :=
  let str := spaces indent +:+ "variable " +:+ field_name this +:+ " : "
             +:+ SymbolType_Name (field_type this) in
  if has_value this then
    if is_value_type (field_type this)
    then str +:+ " = " +:+ render_Z (value this) +:+ nl
    else str +:+ " = " +:+ dquote +:+ literal this +:+ dquote +:+ nl
  else str.

Definition FunctionDefinition_Tree (this : FunctionDefinition) (indent : nat) : printed :=
  let str := spaces indent +:+ "function " +:+ name this +:+ " : "
             +:+ SymbolType_Name (type this) +:+ nl in
  let str :=
    match params this with
    | [] => str
    | _ :: _ =>
        foldl (fun str p => str +:+ VariableDeclaration_Tree p (indent + 2 * indent_length))
          (str +:+ spaces (indent + indent_length) +:+ "parameters" +:+ nl)
          (params this)
    end in
  append_printed (str +:+ spaces (indent + indent_length) +:+ "body" +:+ nl)
    (StatementBlock_Tree (body this) (indent + 2 * indent_length)).

(** Virtual dispatch of [Definition::Tree]; [MainFunctionDefinition] inherits
    the one of [FunctionDefinition]. *)
Definition Definition_Tree (this : Definition_) (indent : nat) : printed :=
  match this with
  | OfField f => Text (FieldDefinition_Tree f indent)
  | OfFunction f => FunctionDefinition_Tree f indent
  | MainFunctionDefinition f => FunctionDefinition_Tree f indent
  end.

(** [Program::Tree]. *)
Definition Program_Tree (definitions : list Definition_) (indent : nat) : printed :=
  print_each (fun d => Definition_Tree d (indent + indent_length)) definitions
    (spaces indent +:+ "program" +:+ nl).
End Tree.

(** ** The outline of a dump

    A line of a dump, apart from its indentation: the depth of its node
    below the node that is dumped, and its text. *)

Definition deeper (lines : list (nat * string)) : list (nat * string) :=
  map (fun l => (S (fst l), snd l)) lines.

Fixpoint ValueExpression_outline (this : ValueExpression) : list (nat * string) :=
  match this with
  | BareValueExpression _ => [(0, "empty statement")]
  | ValueCast exp => (0, "cast to value") :: deeper (BooleanExpression_outline exp)
  | UnaryValueExpression op exp _ =>
      (0, "unary operator " +:+ op) :: deeper (ValueExpression_outline exp)
  | BinaryValueExpression op exp1 exp2 _ =>
      (0, "binary operator " +:+ op)
      :: deeper (ValueExpression_outline exp1 ++ ValueExpression_outline exp2)%list
  | ConstantExpression value _ => [(0, render_Z value)]
  | OfLValue l => LValueExpression_outline l
  | AssignmentExpression target exp _ =>
      (0, "assignment =")
      :: deeper (LValueExpression_outline target ++ ValueExpression_outline exp)%list
  | FunctionCallExpression name args _ =>
      (0, "call " +:+ name) :: deeper (concat (map ValueExpression_outline args))
  end
with LValueExpression_outline (this : LValueExpression) : list (nat * string) :=
  match this with
  | BareLValueExpression _ => [(0, "empty statement")]
  | VariableExpression name _ => [(0, name)]
  | ArrayAccessExpression name index _ =>
      (0, name +:+ "[ ]") :: deeper (ValueExpression_outline index)
  end
with BooleanExpression_outline (this : BooleanExpression) : list (nat * string) :=
  match this with
  | BareBooleanExpression _ => [(0, "empty statement")]
  | BooleanCast exp => (0, "cast to bool") :: deeper (ValueExpression_outline exp)
  | UnaryBooleanExpression op exp _ =>
      (0, "unary operator " +:+ op) :: deeper (BooleanExpression_outline exp)
  | BinaryBooleanExpression op exp1 exp2 _ =>
      (0, "binary operator " +:+ op)
      :: deeper (BooleanExpression_outline exp1 ++ BooleanExpression_outline exp2)%list
  | RelationalExpression op exp1 exp2 _ =>
      (0, "relational operator " +:+ op)
      :: deeper (ValueExpression_outline exp1 ++ ValueExpression_outline exp2)%list
  end.

(** The lines of an outline as text: a line of depth [d] is indented by
    [indent + d * indent_length] spaces and ends with a newline. *)
Definition render_outline (indent_length indent : nat) (lines : list (nat * string))
  : string :=
  foldr (fun l str => spaces (indent + fst l * indent_length) +:+ snd l +:+ nl +:+ str)
    EmptyString lines.

(** The number of nodes of an expression. *)
Fixpoint ValueExpression_nodes (this : ValueExpression) : nat :=
  match this with
  | BareValueExpression _ => 1
  | ValueCast exp => S (BooleanExpression_nodes exp)
  | UnaryValueExpression _ exp _ => S (ValueExpression_nodes exp)
  | BinaryValueExpression _ exp1 exp2 _ =>
      S (ValueExpression_nodes exp1 + ValueExpression_nodes exp2)
  | ConstantExpression _ _ => 1
  | OfLValue l => LValueExpression_nodes l
  | AssignmentExpression target exp _ =>
      S (LValueExpression_nodes target + ValueExpression_nodes exp)
  | FunctionCallExpression _ args _ => S (list_sum (map ValueExpression_nodes args))
  end
with LValueExpression_nodes (this : LValueExpression) : nat :=
  match this with
  | BareLValueExpression _ => 1
  | VariableExpression _ _ => 1
  | ArrayAccessExpression _ index _ => S (ValueExpression_nodes index)
  end
with BooleanExpression_nodes (this : BooleanExpression) : nat :=
  match this with
  | BareBooleanExpression _ => 1
  | BooleanCast exp => S (ValueExpression_nodes exp)
  | UnaryBooleanExpression _ exp _ => S (BooleanExpression_nodes exp)
  | BinaryBooleanExpression _ exp1 exp2 _ =>
      S (BooleanExpression_nodes exp1 + BooleanExpression_nodes exp2)
  | RelationalExpression _ exp1 exp2 _ =>
      S (ValueExpression_nodes exp1 + ValueExpression_nodes exp2)
  end.

(** ** Induction over expressions

    The induction principle of the three mutually defined expression types,
    with the arguments of a call as a list of subterms. *)

Section ExpressionInduction.
Variable P : ValueExpression -> Prop.
Variable PL : LValueExpression -> Prop.
Variable PB : BooleanExpression -> Prop.

Hypothesis bare_value : forall loc, P (BareValueExpression loc).
Hypothesis value_cast : forall exp, PB exp -> P (ValueCast exp).
Hypothesis unary_value : forall op exp loc, P exp -> P (UnaryValueExpression op exp loc).
Hypothesis binary_value :
  forall op exp1 exp2 loc, P exp1 -> P exp2 -> P (BinaryValueExpression op exp1 exp2 loc).
Hypothesis constant : forall value loc, P (ConstantExpression value loc).
Hypothesis of_lvalue : forall l, PL l -> P (OfLValue l).
Hypothesis assignment :
  forall target exp loc, PL target -> P exp -> P (AssignmentExpression target exp loc).
Hypothesis function_call :
  forall name args loc, Forall P args -> P (FunctionCallExpression name args loc).
Hypothesis bare_lvalue : forall loc, PL (BareLValueExpression loc).
Hypothesis variable : forall name loc, PL (VariableExpression name loc).
Hypothesis array_access :
  forall name index loc, P index -> PL (ArrayAccessExpression name index loc).
Hypothesis bare_boolean : forall loc, PB (BareBooleanExpression loc).
Hypothesis boolean_cast : forall exp, P exp -> PB (BooleanCast exp).
Hypothesis unary_boolean :
  forall op exp loc, PB exp -> PB (UnaryBooleanExpression op exp loc).
Hypothesis binary_boolean :
  forall op exp1 exp2 loc,
    PB exp1 -> PB exp2 -> PB (BinaryBooleanExpression op exp1 exp2 loc).
Hypothesis relational :
  forall op exp1 exp2 loc, P exp1 -> P exp2 -> PB (RelationalExpression op exp1 exp2 loc).

Fixpoint ValueExpression_induction (this : ValueExpression) : P this :=
  match this with
  | BareValueExpression loc => bare_value loc
  | ValueCast exp => value_cast exp (BooleanExpression_induction exp)
  | UnaryValueExpression op exp loc => unary_value op exp loc (ValueExpression_induction exp)
  | BinaryValueExpression op exp1 exp2 loc =>
      binary_value op exp1 exp2 loc
        (ValueExpression_induction exp1) (ValueExpression_induction exp2)
  | ConstantExpression value loc => constant value loc
  | OfLValue l => of_lvalue l (LValueExpression_induction l)
  | AssignmentExpression target exp loc =>
      assignment target exp loc
        (LValueExpression_induction target) (ValueExpression_induction exp)
  | FunctionCallExpression name args loc =>
      function_call name args loc
        ((fix each (args : list ValueExpression) : Forall P args :=
            match args with
            | [] => @List.Forall_nil _ P
            | a :: args =>
                @List.Forall_cons _ P a args (ValueExpression_induction a) (each args)
            end) args)
  end
with LValueExpression_induction (this : LValueExpression) : PL this :=
  match this with
  | BareLValueExpression loc => bare_lvalue loc
  | VariableExpression name loc => variable name loc
  | ArrayAccessExpression name index loc =>
      array_access name index loc (ValueExpression_induction index)
  end
with BooleanExpression_induction (this : BooleanExpression) : PB this :=
  match this with
  | BareBooleanExpression loc => bare_boolean loc
  | BooleanCast exp => boolean_cast exp (ValueExpression_induction exp)
  | UnaryBooleanExpression op exp loc =>
      unary_boolean op exp loc (BooleanExpression_induction exp)
  | BinaryBooleanExpression op exp1 exp2 loc =>
      binary_boolean op exp1 exp2 loc
        (BooleanExpression_induction exp1) (BooleanExpression_induction exp2)
  | RelationalExpression op exp1 exp2 loc =>
      relational op exp1 exp2 loc
        (ValueExpression_induction exp1) (ValueExpression_induction exp2)
  end.
Definition expression_induction
  : (forall v, P v) /\ (forall l, PL l) /\ (forall b, PB b) :=
  conj ValueExpression_induction
    (conj LValueExpression_induction BooleanExpression_induction).
End ExpressionInduction.

(** ** Statements that can be dumped

    What keeps [Tree] from returning: a string literal where a statement or
    the step of a [for] has an expression, a switch whose expression was
    never set, a switch with more case bodies than case values. *)

Definition returns_text (p : printed) : bool :=
  match p with
  | Text _ => true
  | _ => false
  end.

Definition Expression_printable (e : Expression) : bool :=
  match e with
  | StringLiteral _ _ => false
  | _ => true
  end.

Fixpoint Statement_printable (this : Statement) : bool :=
  match this with
  | OfExpression e => Expression_printable e
  | OfBlock b => StatementBlock_printable b
  | IfElseStatement _ then_block else_block _ =>
      StatementBlock_printable then_block && StatementBlock_printable else_block
  | OfSwitch s => SwitchStatement_printable s
  | WhileStatement _ body _ => StatementBlock_printable body
  | ForStatement initializer _ step body _ =>
      forallb Statement_printable initializer
      && Expression_printable step && StatementBlock_printable body
  | _ => true
  end
with StatementBlock_printable (this : StatementBlock) : bool :=
  match this with
  | Block statements _ => forallb Statement_printable statements
  end
with SwitchStatement_printable (this : SwitchStatement) : bool :=
  match this with
  | Switch exp case_values case_bodies _ =>
      match exp with Some _ => true | None => false end
      && (length case_bodies <=? length case_values)%nat
      && forallb (forallb Statement_printable) case_bodies
  end.

(** ** Induction over statements *)

Section StatementInduction.
Variable P : Statement -> Prop.
Variable PB : StatementBlock -> Prop.
Variable PS : SwitchStatement -> Prop.

Hypothesis empty_statement : forall loc, P (EmptyStatement loc).
Hypothesis of_expression : forall e, P (OfExpression e).
Hypothesis of_declaration : forall d, P (OfDeclaration d).
Hypothesis bare_jump : forall loc, P (BareJumpStatement loc).
Hypothesis continue_statement : forall loc, P (ContinueStatement loc).
Hypothesis break_statement : forall loc, P (BreakStatement loc).
Hypothesis return_statement : forall exp loc, P (ReturnStatement exp loc).
Hypothesis of_block : forall b, PB b -> P (OfBlock b).
Hypothesis if_else :
  forall condition then_block else_block loc,
    PB then_block -> PB else_block ->
    P (IfElseStatement condition then_block else_block loc).
Hypothesis of_switch : forall s, PS s -> P (OfSwitch s).
Hypothesis while_statement :
  forall condition body loc, PB body -> P (WhileStatement condition body loc).
Hypothesis for_statement :
  forall initializer condition step body loc,
    Forall P initializer -> PB body ->
    P (ForStatement initializer condition step body loc).
Hypothesis block : forall statements loc, Forall P statements -> PB (Block statements loc).
Hypothesis switch :
  forall exp case_values case_bodies loc,
    Forall (Forall P) case_bodies -> PS (Switch exp case_values case_bodies loc).

Fixpoint Statement_induction (this : Statement) : P this :=
  match this with
  | EmptyStatement loc => empty_statement loc
  | OfExpression e => of_expression e
  | OfDeclaration d => of_declaration d
  | BareJumpStatement loc => bare_jump loc
  | ContinueStatement loc => continue_statement loc
  | BreakStatement loc => break_statement loc
  | ReturnStatement exp loc => return_statement exp loc
  | OfBlock b => of_block b (StatementBlock_induction b)
  | IfElseStatement condition then_block else_block loc =>
      if_else condition then_block else_block loc
        (StatementBlock_induction then_block) (StatementBlock_induction else_block)
  | OfSwitch s => of_switch s (SwitchStatement_induction s)
  | WhileStatement condition body loc =>
      while_statement condition body loc (StatementBlock_induction body)
  | ForStatement initializer condition step body loc =>
      for_statement initializer condition step body loc
        ((fix each (l : list Statement) : Forall P l :=
            match l with
            | [] => @List.Forall_nil _ P
            | s :: l => @List.Forall_cons _ P s l (Statement_induction s) (each l)
            end) initializer)
        (StatementBlock_induction body)
  end
with StatementBlock_induction (this : StatementBlock) : PB this :=
  match this with
  | Block statements loc =>
      block statements loc
        ((fix each (l : list Statement) : Forall P l :=
            match l with
            | [] => @List.Forall_nil _ P
            | s :: l => @List.Forall_cons _ P s l (Statement_induction s) (each l)
            end) statements)
  end
with SwitchStatement_induction (this : SwitchStatement) : PS this :=
  match this with
  | Switch exp case_values case_bodies loc =>
      switch exp case_values case_bodies loc
        ((fix bodies (ll : list (list Statement)) : Forall (Forall P) ll :=
            match ll with
            | [] => @List.Forall_nil _ (Forall P)
            | l :: ll =>
                @List.Forall_cons _ (Forall P) l ll
                  ((fix each (l : list Statement) : Forall P l :=
                      match l with
                      | [] => @List.Forall_nil _ P
                      | s :: l => @List.Forall_cons _ P s l (Statement_induction s) (each l)
                      end) l)
                  (bodies ll)
            end) case_bodies)
  end.

Definition statement_induction
  : (forall s, P s) /\ (forall b, PB b) /\ (forall s, PS s) :=
  conj Statement_induction (conj StatementBlock_induction SwitchStatement_induction).
End StatementInduction.

(** The definitions of a program whose dump needs the dump of a block: the
    functions. *)
Definition Definition_printable (d : Definition_) : bool :=
  match d with
  | OfField _ => true
  | OfFunction f => StatementBlock_printable (body f)
  | MainFunctionDefinition f => StatementBlock_printable (body f)
  end.

(** ** Complete lines

    Whether a text ends with a newline: it is not empty, and what follows it
    starts a new line. *)
Fixpoint ends_with_newline (s : string) : bool :=
  match s with
  | EmptyString => false
  | String c EmptyString => Ascii.eqb c (ascii_of_nat 10)
  | String _ rest => ends_with_newline rest
  end.

(** The same of a dump, when it returns. *)
Definition complete_lines (p : printed) : bool :=
  match p with
  | Text str => ends_with_newline str
  | _ => true
  end.

(** * Properties *)

(** ** Helper tactics and lemmas *)

(** Case analysis on every comparison of the operator name [op]. *)
Ltac operator_cases op :=
  repeat match goal with
         | |- context [String.eqb op ?s] => destruct (String.eqb_spec op s); subst
         | H : context [String.eqb op ?s] |- _ => destruct (String.eqb_spec op s); subst
         end.

Ltac run_outcome := cbn [mbind outcome_bind mret outcome_ret] in *.

Lemma ValueCast_IfNeeded_category exp :
  has_category exp = true -> exists stored, ValueCast.IfNeeded exp = Return stored.
Proof. destruct exp; cbn; try discriminate; eauto. Qed.

Lemma BooleanCast_IfNeeded_category exp :
  has_category exp = true -> exists stored, BooleanCast.IfNeeded exp = Return stored.
Proof. destruct exp; cbn; try discriminate; eauto. Qed.

(** A coercion either returns or fails its assertion. *)
Lemma ValueCast_IfNeeded_outcomes exp :
  (exists stored, ValueCast.IfNeeded exp = Return stored /\ coerced_to_value exp stored)
  \/ ValueCast.IfNeeded exp = Throw assertion_failure.
Proof. destruct exp; cbn; eauto. Qed.

Lemma BooleanCast_IfNeeded_outcomes exp :
  (exists stored, BooleanCast.IfNeeded exp = Return stored /\ coerced_to_boolean exp stored)
  \/ BooleanCast.IfNeeded exp = Throw assertion_failure.
Proof. destruct exp; cbn; eauto. Qed.

(** Inversion of a constructor call that returned: name the coerced children. *)
Ltac coerce exp :=
  let stored := fresh "stored" in
  let Hret := fresh "Hret" in
  let Hco := fresh "Hco" in
  destruct (ValueCast_IfNeeded_outcomes exp) as [(stored & Hret & Hco) | Hret];
  rewrite Hret in *; run_outcome; try discriminate.

Ltac coerce_boolean exp :=
  let stored := fresh "stored" in
  let Hret := fresh "Hret" in
  let Hco := fresh "Hco" in
  destruct (BooleanCast_IfNeeded_outcomes exp) as [(stored & Hret & Hco) | Hret];
  rewrite Hret in *; run_outcome; try discriminate.

(** ** C1: every constructor stores its children coerced *)


(** ** C6: the operator checks *)

Lemma throws_CompileError_bind {A B} (m : outcome A) (f : A -> outcome B) :
  throws_CompileError m = false ->
  (forall a, throws_CompileError (f a) = false) ->
  throws_CompileError (m ≫= f) = false.
Proof. destruct m; cbn; auto. Qed.

Lemma ValueCast_IfNeeded_no_CompileError exp :
  throws_CompileError (ValueCast.IfNeeded exp) = false.
Proof. destruct exp; reflexivity. Qed.

Lemma BooleanCast_IfNeeded_no_CompileError exp :
  throws_CompileError (BooleanCast.IfNeeded exp) = false.
Proof. destruct exp; reflexivity. Qed.

Ltac no_CompileError :=
  repeat first
    [ apply throws_CompileError_bind;
      [ first [ apply ValueCast_IfNeeded_no_CompileError
              | apply BooleanCast_IfNeeded_no_CompileError ]
      | intros ? ]
    | match goal with |- context [if ?c then _ else _] => destruct c end
    | reflexivity ].

(** Membership of a name in a list of operator names, by cases. *)
Ltac operator_membership :=
  unfold unary_value_operators, binary_value_operators, unary_boolean_operators,
    binary_boolean_operators, relational_operators in *;
  repeat match goal with
         | H : _ ∈ _ :: _ |- _ => apply elem_of_cons in H; destruct H as [-> | H]
         | H : _ ∈ [] |- _ => apply elem_of_nil in H; destruct H
         end.

Ltac in_operators := repeat first [ apply list_elem_of_here | apply list_elem_of_further ].

(** C6.  Each operator-node constructor accepts exactly the operator names
    of its class and throws [std::domain_error] for any other name, given
    children that have a category; whatever it is given, it never returns a
    node for a name outside its set and never throws a [CompileError], the
    only exception that goes to the user diagnostics. *)
Theorem operator_constructors_check_operator (op : string) :
  (forall exp loc,
      (returns (UnaryValueExpression.new op exp loc) = true -> op ∈ unary_value_operators)
      /\ throws_CompileError (UnaryValueExpression.new op exp loc) = false
      /\ (has_category exp = true ->
          (op ∈ unary_value_operators -> returns (UnaryValueExpression.new op exp loc) = true)
          /\ (op ∉ unary_value_operators ->
              UnaryValueExpression.new op exp loc = Throw (domain_error "invalid operator"))))
  /\ (forall exp1 exp2,
      (returns (BinaryValueExpression.new op exp1 exp2) = true -> op ∈ binary_value_operators)
      /\ throws_CompileError (BinaryValueExpression.new op exp1 exp2) = false
      /\ (has_category exp1 = true -> has_category exp2 = true ->
          (op ∈ binary_value_operators -> returns (BinaryValueExpression.new op exp1 exp2) = true)
          /\ (op ∉ binary_value_operators ->
              BinaryValueExpression.new op exp1 exp2 = Throw (domain_error "invalid operator"))))
  /\ (forall exp loc,
      (returns (UnaryBooleanExpression.new op exp loc) = true -> op ∈ unary_boolean_operators)
      /\ throws_CompileError (UnaryBooleanExpression.new op exp loc) = false
      /\ (has_category exp = true ->
          (op ∈ unary_boolean_operators -> returns (UnaryBooleanExpression.new op exp loc) = true)
          /\ (op ∉ unary_boolean_operators ->
              UnaryBooleanExpression.new op exp loc = Throw (domain_error "invalid operator"))))
  /\ (forall exp1 exp2,
      (returns (BinaryBooleanExpression.new op exp1 exp2) = true -> op ∈ binary_boolean_operators)
      /\ throws_CompileError (BinaryBooleanExpression.new op exp1 exp2) = false
      /\ (has_category exp1 = true -> has_category exp2 = true ->
          (op ∈ binary_boolean_operators -> returns (BinaryBooleanExpression.new op exp1 exp2) = true)
          /\ (op ∉ binary_boolean_operators ->
              BinaryBooleanExpression.new op exp1 exp2 = Throw (domain_error "invalid operator"))))
  /\ (forall exp1 exp2,
      (returns (RelationalExpression.new op exp1 exp2) = true -> op ∈ relational_operators)
      /\ throws_CompileError (RelationalExpression.new op exp1 exp2) = false
      /\ (has_category exp1 = true -> has_category exp2 = true ->
          (op ∈ relational_operators -> returns (RelationalExpression.new op exp1 exp2) = true)
          /\ (op ∉ relational_operators ->
              RelationalExpression.new op exp1 exp2 = Throw (domain_error "invalid operator")))).
Proof.
  repeat apply conj.
  - intros exp loc; unfold UnaryValueExpression.new; repeat apply conj.
    + coerce exp. operator_cases op; cbn; try discriminate; intros _; in_operators.
    + no_CompileError.
    + intros Hcat; destruct (ValueCast_IfNeeded_category exp Hcat) as [stored ->].
      run_outcome; split; intros Hop.
      * operator_membership; reflexivity.
      * operator_cases op; cbn; try reflexivity; exfalso; apply Hop; in_operators.
  - intros exp1 exp2; unfold BinaryValueExpression.new; repeat apply conj.
    + coerce exp1; coerce exp2.
      operator_cases op; cbn; try discriminate; intros _; in_operators.
    + no_CompileError.
    + intros Hcat1 Hcat2.
      destruct (ValueCast_IfNeeded_category exp1 Hcat1) as [stored1 ->].
      destruct (ValueCast_IfNeeded_category exp2 Hcat2) as [stored2 ->].
      run_outcome; split; intros Hop.
      * operator_membership; reflexivity.
      * operator_cases op; cbn; try reflexivity; exfalso; apply Hop; in_operators.
  - intros exp loc; unfold UnaryBooleanExpression.new; repeat apply conj.
    + coerce_boolean exp. operator_cases op; cbn; try discriminate; intros _; in_operators.
    + no_CompileError.
    + intros Hcat; destruct (BooleanCast_IfNeeded_category exp Hcat) as [stored ->].
      run_outcome; split; intros Hop.
      * operator_membership; reflexivity.
      * operator_cases op; cbn; try reflexivity; exfalso; apply Hop; in_operators.
  - intros exp1 exp2; unfold BinaryBooleanExpression.new; repeat apply conj.
    + coerce_boolean exp1; coerce_boolean exp2.
      operator_cases op; cbn; try discriminate; intros _; in_operators.
    + no_CompileError.
    + intros Hcat1 Hcat2.
      destruct (BooleanCast_IfNeeded_category exp1 Hcat1) as [stored1 ->].
      destruct (BooleanCast_IfNeeded_category exp2 Hcat2) as [stored2 ->].
      run_outcome; split; intros Hop.
      * operator_membership; reflexivity.
      * operator_cases op; cbn; try reflexivity; exfalso; apply Hop; in_operators.
  - intros exp1 exp2; unfold RelationalExpression.new; repeat apply conj.
    + coerce exp1; coerce exp2.
      operator_cases op; cbn; try discriminate; intros _; in_operators.
    + no_CompileError.
    + intros Hcat1 Hcat2.
      destruct (ValueCast_IfNeeded_category exp1 Hcat1) as [stored1 ->].
      destruct (ValueCast_IfNeeded_category exp2 Hcat2) as [stored2 ->].
      run_outcome; split; intros Hop.
      * operator_membership; reflexivity.
      * operator_cases op; cbn; try reflexivity; exfalso; apply Hop; in_operators.
Qed.

(** ** C4: string literals outside global initialisers *)

(** C4, counterexample.  Negating the string literal ["abc"] is not reported as
    a [CompileError]: the constructor fails the assertion of
    [ValueCast::IfNeeded], and so does evaluating the literal. *)
Lemma string_literal_operand_is_not_a_CompileError :
  UnaryValueExpression.new "-" (StringLiteral "abc" sample_location) sample_location
    = Throw assertion_failure
  /\ throws_CompileError
       (UnaryValueExpression.new "-" (StringLiteral "abc" sample_location) sample_location)
     = false
  /\ fst (StringLiteral.Evaluate (Symbol := ConcreteSymbol) "abc" sample_location
            (ExpressionContext_of {| scopes := [] |})
            {| label_counter := 0; global_symbols := ∅ |})
     = Throw assertion_failure.
Proof. repeat split. Qed.

(** A second operand that is a string literal: the first operand either
    fails the assertion itself or is coerced, and then the literal fails. *)
Lemma ValueCast_IfNeeded_then_StringLiteral {A} exp value loc
    (k : ValueExpression -> ValueExpression -> outcome A) :
  (stored1 ← ValueCast.IfNeeded exp;
   stored2 ← ValueCast.IfNeeded (StringLiteral value loc);
   k stored1 stored2) = Throw assertion_failure.
Proof. destruct exp; reflexivity. Qed.

Lemma BooleanCast_IfNeeded_then_StringLiteral {A} exp value loc
    (k : BooleanExpression -> BooleanExpression -> outcome A) :
  (stored1 ← BooleanCast.IfNeeded exp;
   stored2 ← BooleanCast.IfNeeded (StringLiteral value loc);
   k stored1 stored2) = Throw assertion_failure.
Proof. destruct exp; reflexivity. Qed.

(** C4, amended.  A string literal in a position that requires a value or a
    boolean expression makes the constructor fail the assertion of the
    coercion helper, whatever the operator, the other operand and the
    location are; evaluating a string literal fails an assertion in every
    context.  None of these is a [CompileError]. *)
Theorem string_literal_use_fails_assertion (value : string) (loc : Location) :
  ValueCast.IfNeeded (StringLiteral value loc) = Throw assertion_failure
  /\ BooleanCast.IfNeeded (StringLiteral value loc) = Throw assertion_failure
  /\ (forall op l,
        UnaryValueExpression.new op (StringLiteral value loc) l = Throw assertion_failure)
  /\ (forall op other,
        BinaryValueExpression.new op (StringLiteral value loc) other = Throw assertion_failure
        /\ BinaryValueExpression.new op other (StringLiteral value loc) = Throw assertion_failure)
  /\ (forall left,
        AssignmentExpression.new left (StringLiteral value loc) = Throw assertion_failure)
  /\ (forall name l,
        ArrayAccessExpression.new name (StringLiteral value loc) l = Throw assertion_failure)
  /\ (forall l, ReturnStatement.new (StringLiteral value loc) l = Throw assertion_failure)
  /\ (forall op other,
        RelationalExpression.new op (StringLiteral value loc) other = Throw assertion_failure
        /\ RelationalExpression.new op other (StringLiteral value loc) = Throw assertion_failure)
  /\ (forall op l,
        UnaryBooleanExpression.new op (StringLiteral value loc) l = Throw assertion_failure)
  /\ (forall op other,
        BinaryBooleanExpression.new op (StringLiteral value loc) other = Throw assertion_failure
        /\ BinaryBooleanExpression.new op other (StringLiteral value loc)
           = Throw assertion_failure)
  /\ (forall then_block else_block l,
        IfElseStatement.new (StringLiteral value loc) then_block else_block l
        = Throw assertion_failure)
  /\ (forall body l,
        WhileStatement.new (StringLiteral value loc) body l = Throw assertion_failure)
  /\ (forall initializer step body l,
        ForStatement.new initializer (StringLiteral value loc) step body l
        = Throw assertion_failure)
  /\ (forall this,
        SwitchStatement.SetExpression this (StringLiteral value loc) = Throw assertion_failure)
  /\ (forall (Symbol : Type) (ctx : ExpressionContext Symbol) (g : GlobalContext Symbol),
        StringLiteral.Evaluate value loc ctx g = (Throw assertion_failure, g))
  /\ is_CompileError assertion_failure = false.
Proof.
  repeat apply conj; try reflexivity; intros; try (split; [reflexivity | ]).
  - unfold BinaryValueExpression.new. apply ValueCast_IfNeeded_then_StringLiteral.
  - unfold RelationalExpression.new. apply ValueCast_IfNeeded_then_StringLiteral.
  - unfold BinaryBooleanExpression.new. apply BooleanCast_IfNeeded_then_StringLiteral.
  - destruct this; reflexivity.
Qed.

(** ** C8: the operator tables *)

Ltac table_lookup :=
  repeat match goal with
         | H : <[_ := _]> _ !! _ = Some _ |- _ =>
             apply lookup_insert_Some in H; destruct H as [[<- <-] | [? H]]
         | H : ∅ !! _ = Some _ |- _ =>
             rewrite lookup_empty in H; discriminate H
         end.

(** C8.  The three operator tables hold exactly the listed pairs: a name
    maps to an instruction if and only if the pair is one of the listed
    ones. *)
Theorem op_to_instruction_tables (op instruction : string) :
  (BinaryValueExpression.op_to_instruction !! op = Some instruction <->
     (op, instruction) ∈ [("+", "addu"); ("-", "subu"); ("*", "mul"); ("/", "divu");
                          ("&", "and"); ("|", "or"); ("^", "xor")])
  /\ (UnaryValueExpression.op_to_instruction !! op = Some instruction <->
     (op, instruction) ∈ [("+", "move"); ("-", "negu"); ("~", "not")])
  /\ (RelationalExpression.op_to_instruction !! op = Some instruction <->
     (op, instruction) ∈ [("==", "beq"); ("!=", "bne"); ("<", "blt"); ("<=", "ble");
                          (">", "bgt"); (">=", "bge")]).
Proof.
  unfold BinaryValueExpression.op_to_instruction, UnaryValueExpression.op_to_instruction,
    RelationalExpression.op_to_instruction.
  cbn [list_to_map foldr uncurry fst snd].
  repeat apply conj; intros H.
  all: try (table_lookup; in_operators).
  all: repeat (apply elem_of_cons in H; destruct H as [[= -> ->] | H]);
    try (apply elem_of_nil in H; destruct H); reflexivity.
Qed.

(** ** C10: the main function *)

(** C10.  Whatever return type, body and location it is constructed with, a
    [MainFunctionDefinition] is a function definition named ["main"] with an
    empty parameter list (and the given type and body). *)
Theorem MainFunctionDefinition_is_main (t : SymbolType) (b : StatementBlock) (loc : Location) :
  exists f,
    MainFunctionDefinition.new t b loc = MainFunctionDefinition f
    /\ MainFunctionDefinition.as_FunctionDefinition (MainFunctionDefinition.new t b loc) = Some f
    /\ name f = "main" /\ params f = [] /\ type f = t /\ body f = b.
Proof. eexists; repeat split. Qed.

(** ** C9: the target of an assignment *)

(** C9, counterexample.  [LValueExpression] is a concrete class with a public
    constructor: an assignment whose target is a bare [LValueExpression] is
    built by the public constructors, and [Assign] on that target runs the
    default, which fails its assertion. *)
Lemma bare_lvalue_target_reaches_default_Assign :
  AssignmentExpression.new (BareLValueExpression sample_location)
    (OfValue (ConstantExpression 0 sample_location))
  = Return (AssignmentExpression (BareLValueExpression sample_location)
              (ConstantExpression 0 sample_location)
              (Location_add sample_location sample_location))
  /\ LValueExpression.Assign_dispatch (BareLValueExpression sample_location)
     = LValueExpression.default_Assign
  /\ LValueExpression.Assign (fun _ _ _ _ _ => M_ret Code_empty)
       (BareLValueExpression sample_location)
       (ExpressionContext_of {| scopes := [] |}) (Literal 0)
       {| label_counter := 0; global_symbols := ∅ |}
     = (Throw assertion_failure, {| label_counter := 0; global_symbols := ∅ |}).
Proof. repeat split. Qed.

(** C9, amended.  The target of every [AssignmentExpression] is the
    [LValueExpression] it was constructed with, so no expression of another
    class can be assigned to.  [Assign] on a [VariableExpression] or an
    [ArrayAccessExpression] target runs the override of that class; the
    default of the base class runs exactly when the target is a bare
    [LValueExpression], and such a target is accepted by the constructor. *)
Theorem assignment_target_dispatch :
  (forall left exp node,
      AssignmentExpression.new left exp = Return node ->
      exists stored l, node = AssignmentExpression left stored l)
  /\ (forall left,
      LValueExpression.Assign_dispatch left = LValueExpression.default_Assign <->
      exists loc, left = BareLValueExpression loc)
  /\ (forall n loc,
      LValueExpression.Assign_dispatch (VariableExpression n loc)
      = LValueExpression.VariableExpression_Assign)
  /\ (forall n index loc,
      LValueExpression.Assign_dispatch (ArrayAccessExpression n index loc)
      = LValueExpression.ArrayAccessExpression_Assign)
  /\ (forall (Symbol : Type) (ops : SymbolOps Symbol) array_assign left ctx value g,
      LValueExpression.Assign array_assign left ctx value g =
      match LValueExpression.Assign_dispatch left, left with
      | LValueExpression.VariableExpression_Assign, VariableExpression n loc =>
          VariableExpression.Assign n loc ctx value g
      | LValueExpression.ArrayAccessExpression_Assign, ArrayAccessExpression n index loc =>
          array_assign n index loc ctx value g
      | _, _ => (Throw assertion_failure, g)
      end)
  /\ (forall loc exp,
      has_category exp = true ->
      returns (AssignmentExpression.new (BareLValueExpression loc) exp) = true).
Proof.
  repeat apply conj.
  - intros left exp node. unfold AssignmentExpression.new. coerce exp.
    intros [= <-]; eauto.
  - intros [loc | n loc | n index loc]; cbn; split; intros H;
      try discriminate H; eauto; destruct H as [l [=]].
  - reflexivity.
  - reflexivity.
  - intros Symbol ops array_assign [loc | n loc | n index loc] ctx value g; reflexivity.
  - intros loc exp Hcat. unfold AssignmentExpression.new.
    destruct (ValueCast_IfNeeded_category exp Hcat) as [stored ->]. reflexivity.
Qed.

(** ** C7: assigning to a variable *)

Section Assign.
Context {Symbol : Type} `{!SymbolOps Symbol}.

Lemma lookup_chain_None (chain : list (gmap string Symbol)) (n : string) :
  lookup_chain chain n = None <-> Forall (fun scope => scope !! n = None) chain.
Proof.
  induction chain as [| scope outer IH]; cbn.
  - split; [constructor | reflexivity].
  - destruct (scope !! n) eqn:Hscope.
    + split; [discriminate | intros H; inversion H; congruence].
    + rewrite IH. split; [intros H; constructor; assumption | intros H; inversion H; assumption].
Qed.

(** The chain returns the binding of the nearest scope that has one. *)
Lemma lookup_chain_Some (chain : list (gmap string Symbol)) (n : string) (symbol : Symbol) :
  lookup_chain chain n = Some symbol <->
  exists inner scope outer,
    chain = (inner ++ scope :: outer)%list
    /\ Forall (fun scope => scope !! n = None) inner
    /\ scope !! n = Some symbol.
Proof.
  induction chain as [| scope outer IH]; cbn.
  - split; [discriminate | intros (inner & ? & ? & Heq & _); destruct inner; discriminate Heq].
  - destruct (scope !! n) eqn:Hscope.
    + split.
      * intros [= <-]. exists [], scope, outer. repeat split; [constructor | assumption].
      * intros (inner & scope' & outer' & Heq & Hinner & Hfound).
        destruct inner as [| first inner]; cbn in Heq; injection Heq as Hs Ho; subst.
        -- congruence.
        -- inversion Hinner; congruence.
    + rewrite IH. split.
      * intros (inner & scope' & outer' & Heq & Hinner & Hfound). subst outer.
        exists (scope :: inner), scope', outer'. repeat split; [constructor | ]; assumption.
      * intros (inner & scope' & outer' & Heq & Hinner & Hfound).
        destruct inner as [| first inner]; cbn in Heq; injection Heq as Hs Ho; subst.
        -- congruence.
        -- inversion Hinner; subst. eauto 6.
Qed.

(** C7.  [Assign] on a variable whose name has no binding in any scope of
    the local chain nor in the global table throws a [CompileError] that
    carries the location of the expression and the message
    [undefined symbol "name"].  When the name resolves (to the nearest local
    binding, else to the global one), [Assign] loads the source value into
    [$v0] and then saves [$v0] into the resolved symbol: the code is the load
    followed by the save.  The global context is left as it was. *)
Theorem VariableExpression_Assign_spec
    (n : string) (loc : Location) (ctx : ExpressionContext Symbol)
    (value : Symbol) (g : GlobalContext Symbol) :
  (Forall (fun scope => scope !! n = None) (scopes (local_context ctx)) ->
   global_symbols g !! n = None ->
   VariableExpression.Assign n loc ctx value g
   = (Throw (CompileError loc ("undefined symbol " +:+ dquote +:+ n +:+ dquote)), g))
  /\ (forall symbol,
        resolves g (local_context ctx) n symbol ->
        VariableExpression.Assign n loc ctx value g
        = (code ← LoadValue value "$v0";
           save ← SaveValue symbol "$v0";
           Return (Code_add code save), g))
  /\ (forall symbol code save,
        resolves g (local_context ctx) n symbol ->
        LoadValue value "$v0" = Return code ->
        SaveValue symbol "$v0" = Return save ->
        VariableExpression.Assign n loc ctx value g
        = (Return {| text := text code +:+ text save; data := data code +:+ data save |}, g)).
Proof.
  assert (Hresolved : forall symbol,
             resolves g (local_context ctx) n symbol ->
             VariableExpression.Assign n loc ctx value g
             = (code ← LoadValue value "$v0";
                save ← SaveValue symbol "$v0";
                Return (Code_add code save), g)).
  { intros symbol Hres.
    unfold VariableExpression.Assign, LocalContext_lookup, M_bind, M_lift, M_ret.
    destruct Hres as [-> | [-> ->]];
      destruct (LoadValue value "$v0"); cbn; try reflexivity;
      destruct (SaveValue symbol "$v0"); reflexivity. }
  repeat apply conj.
  - intros Hlocal Hglobal. apply lookup_chain_None in Hlocal.
    unfold VariableExpression.Assign, LocalContext_lookup, M_bind, M_throw.
    rewrite Hlocal, Hglobal. reflexivity.
  - exact Hresolved.
  - intros symbol code save Hres Hload Hsave.
    rewrite (Hresolved symbol Hres), Hload, Hsave. reflexivity.
Qed.
End Assign.

(** ** C5: boolean expressions at statement level *)

Lemma label_name_inj (n m : nat) : label_name n = label_name m -> n = m.
Proof.
  unfold label_name. intros H.
  assert (Hcons : forall s, "L" +:+ s = String "L"%char s) by reflexivity.
  rewrite !Hcons in H. injection H as H.
  apply (f_equal NilEmpty.uint_of_string) in H. rewrite !NilEmpty.usu in H.
  injection H as H. apply (f_equal Nat.of_uint) in H.
  rewrite !Unsigned.of_to in H. exact H.
Qed.

Section Compile.
Context {Symbol : Type}.
Variable Evaluate_override :
  BooleanExpression -> ExpressionContext Symbol -> string -> string -> M Symbol Code.

(** C5.  [Compile] on a boolean expression mints one label from the global
    counter, a label that no earlier minting returned; it evaluates the
    expression, in a fresh expression context and the global context as
    the minting left it, with that label as both the true and the false
    target; and when the evaluation returns code, the result is that code
    with the definition of the label appended right after its text, the
    data unchanged.  An exception of the evaluation propagates. *)
Theorem BooleanExpression_Compile_spec
    (this : BooleanExpression) (ctx : LocalContext Symbol) (g : GlobalContext Symbol) :
  let label := label_name (label_counter g) in
  let minted := {| label_counter := S (label_counter g);
                   global_symbols := global_symbols g |} in
  NewLabel g = (Return label, minted)
  /\ (forall n, n < label_counter g -> label_name n <> label)
  /\ (forall code g',
        BooleanExpression.Evaluate Evaluate_override this
          (ExpressionContext_of ctx) label label minted = (Return code, g') ->
        BooleanExpression.Compile Evaluate_override this ctx g
        = (Return {| text := text code +:+ tab +:+ label +:+ ":" +:+ nl;
                     data := data code |}, g'))
  /\ (forall e g',
        BooleanExpression.Evaluate Evaluate_override this
          (ExpressionContext_of ctx) label label minted = (Throw e, g') ->
        BooleanExpression.Compile Evaluate_override this ctx g = (Throw e, g')).
Proof.
  intros label minted. repeat apply conj.
  - reflexivity.
  - intros n Hlt Heq. apply label_name_inj in Heq. lia.
  - intros code g' Heval.
    unfold BooleanExpression.Compile, M_bind. cbn [NewLabel].
    fold label minted. rewrite Heval. reflexivity.
  - intros e g' Heval.
    unfold BooleanExpression.Compile, M_bind. cbn [NewLabel].
    fold label minted. rewrite Heval. reflexivity.
Qed.
End Compile.

(** ** Worked examples *)

(** [-(1 < 2)]: the relational operand of a value operator is cast once. *)
Example negated_comparison_is_cast :
  RelationalExpression.new "<"
    (OfValue (ConstantExpression 1 sample_location))
    (OfValue (ConstantExpression 2 sample_location))
  = Return sample_comparison
  /\ UnaryValueExpression.new "-" (OfBoolean sample_comparison) sample_location
     = Return (UnaryValueExpression "-" (ValueCast sample_comparison)
                 (Location_add sample_location sample_location)).
Proof. split; reflexivity. Qed.

(** [while (1)]: the value condition is cast once; [while (1 < 2)]: the
    boolean condition is stored as it is. *)
Example while_conditions :
  WhileStatement.new (OfValue (ConstantExpression 1 sample_location))
    (Block [] sample_location) sample_location
  = Return (WhileStatement (BooleanCast (ConstantExpression 1 sample_location))
              (Block [] sample_location) sample_location)
  /\ WhileStatement.new (OfBoolean sample_comparison) (Block [] sample_location) sample_location
     = Return (WhileStatement sample_comparison (Block [] sample_location) sample_location).
Proof. split; reflexivity. Qed.

(** An operator outside the set of its class. *)
Example modulo_is_not_a_binary_operator :
  BinaryValueExpression.new "%"
    (OfValue (ConstantExpression 1 sample_location))
    (OfValue (ConstantExpression 2 sample_location))
  = Throw (domain_error "invalid operator").
Proof. reflexivity. Qed.

(** Compiling [1 < 2] as a statement with the sample emitter: the first label
    is minted, passed as both targets and defined after the evaluated code. *)
Example Compile_sample_comparison :
  BooleanExpression.Compile sample_emitter sample_comparison {| scopes := [] |}
    {| label_counter := 0; global_symbols := ∅ |}
  = (Return {| text := tab +:+ "beq $t0, $t1, L0" +:+ nl
                       +:+ tab +:+ "j L0" +:+ nl
                       +:+ tab +:+ "L0:" +:+ nl;
               data := EmptyString |},
     {| label_counter := 1; global_symbols := ∅ |}).
Proof. reflexivity. Qed.

(** Assigning the temporary [$t0] to the local [x], to the global [y] and to
    the undeclared [z], inside a block nested in the block that declares
    [x]. *)
Example Assign_sample_names :
  let ctx := ExpressionContext_of sample_scopes in
  fst (VariableExpression.Assign "x" sample_location ctx (Temporary 0 Int) sample_globals)
  = Return {| text := tab +:+ "move $v0, $t0" +:+ nl +:+ tab +:+ "sw $v0, -4($fp)" +:+ nl;
              data := EmptyString |}
  /\ fst (VariableExpression.Assign "y" sample_location ctx (Temporary 0 Int) sample_globals)
     = Return {| text := tab +:+ "move $v0, $t0" +:+ nl +:+ tab +:+ "sw $v0, y" +:+ nl;
                 data := EmptyString |}
  /\ fst (VariableExpression.Assign "z" sample_location ctx (Temporary 0 Int) sample_globals)
     = Throw (CompileError sample_location ("undefined symbol " +:+ dquote +:+ "z" +:+ dquote)).
Proof. repeat split; vm_compute; reflexivity. Qed.

(** ** The properties at sample inputs *)


(** C5 at [1 < 2] with the sample emitter. *)
Lemma BooleanExpression_Compile_spec_witness :
  BooleanExpression.Compile sample_emitter sample_comparison {| scopes := [] |}
    {| label_counter := 3; global_symbols := ∅ |}
  = (Return {| text := (tab +:+ "beq $t0, $t1, L3" +:+ nl +:+ tab +:+ "j L3" +:+ nl)
                       +:+ tab +:+ "L3" +:+ ":" +:+ nl;
               data := EmptyString |},
     {| label_counter := 4; global_symbols := ∅ |})
  /\ label_name 0 <> "L3" /\ label_name 1 <> "L3" /\ label_name 2 <> "L3".
Proof.
  pose proof (BooleanExpression_Compile_spec sample_emitter sample_comparison
                {| scopes := [] |} {| label_counter := 3; global_symbols := ∅ |}) as H.
  cbv zeta in H. destruct H as (_ & Hfresh & Hreturn & _).
  split; [ | repeat split; apply Hfresh; cbn; lia].
  apply (Hreturn {| text := tab +:+ "beq $t0, $t1, L3" +:+ nl +:+ tab +:+ "j L3" +:+ nl;
                    data := EmptyString |}).
  reflexivity.
Defined.

(** C6 at [+] and at [%] for the binary value operators. *)
Lemma operator_constructors_check_operator_witness :
  returns (BinaryValueExpression.new "+"
             (OfValue (ConstantExpression 1 sample_location))
             (OfBoolean sample_comparison)) = true
  /\ BinaryValueExpression.new "%"
       (OfValue (ConstantExpression 1 sample_location))
       (OfBoolean sample_comparison)
     = Throw (domain_error "invalid operator").
Proof.
  split.
  - destruct (operator_constructors_check_operator "+") as (_ & Hbinary & _).
    destruct (Hbinary (OfValue (ConstantExpression 1 sample_location))
                (OfBoolean sample_comparison)) as (_ & _ & Haccept).
    apply Haccept; [reflexivity | reflexivity | ]. in_operators.
  - destruct (operator_constructors_check_operator "%") as (_ & Hbinary & _).
    destruct (Hbinary (OfValue (ConstantExpression 1 sample_location))
                (OfBoolean sample_comparison)) as (_ & _ & Hreject).
    apply Hreject; [reflexivity | reflexivity | ].
    intros Hin. unfold binary_value_operators in Hin.
    repeat (apply elem_of_cons in Hin; destruct Hin as [Hin | Hin]; [discriminate Hin | ]).
    apply elem_of_nil in Hin. exact Hin.
Defined.

(** C7 at the undeclared [z] and at the local [x]. *)
Lemma VariableExpression_Assign_spec_witness :
  VariableExpression.Assign "z" sample_location (ExpressionContext_of sample_scopes)
    (Temporary 0 Int) sample_globals
  = (Throw (CompileError sample_location ("undefined symbol " +:+ dquote +:+ "z" +:+ dquote)),
     sample_globals)
  /\ VariableExpression.Assign "x" sample_location (ExpressionContext_of sample_scopes)
       (Temporary 0 Int) sample_globals
     = (Return {| text := text (Code_of [op2 "move" "$v0" "$t0"])
                          +:+ text (Code_of [sw "$v0" (at_offset (-4) "$fp")]);
                  data := EmptyString |},
        sample_globals).
Proof.
  split.
  - destruct (VariableExpression_Assign_spec "z" sample_location
                (ExpressionContext_of sample_scopes) (Temporary 0 Int) sample_globals)
      as (Hundefined & _).
    apply Hundefined; [repeat constructor | reflexivity].
  - destruct (VariableExpression_Assign_spec "x" sample_location
                (ExpressionContext_of sample_scopes) (Temporary 0 Int) sample_globals)
      as (_ & _ & Hresolved).
    apply (Hresolved (LocalVariable (-4) Int)
             (Code_of [op2 "move" "$v0" "$t0"])
             (Code_of [sw "$v0" (at_offset (-4) "$fp")])).
    + left. reflexivity.
    + reflexivity.
    + reflexivity.
Defined.

(** C9 at the assignment [x = 0]. *)
Lemma assignment_target_dispatch_witness :
  exists stored l,
    AssignmentExpression (VariableExpression "x" sample_location)
      (ConstantExpression 0 sample_location) (Location_add sample_location sample_location)
    = AssignmentExpression (VariableExpression "x" sample_location) stored l.
Proof.
  destruct assignment_target_dispatch as (Htarget & _).
  apply (Htarget (VariableExpression "x" sample_location)
           (OfValue (ConstantExpression 0 sample_location))).
  reflexivity.
Defined.

(** * The command line and the tree dumps *)

#[local] Set Warnings "-clear-no-such-hyp".

(** ** The command line *)

(** The loop reads its arguments from left to right: what follows an
    accepted prefix is read from the driver and the output the prefix left. *)
Lemma arguments_app (a b : list string) (d d' : Main.Driver) (out out' : string) :
  Main.arguments a d out = Main.accepted d' out' ->
  Main.arguments (a ++ b)%list d out = Main.arguments b d' out'.
Proof.
  revert d out. induction a as [a IH] using (induction_ltof1 _ (@List.length string)).
  unfold ltof in IH. intros d out Haccepted.
  destruct a as [| arg rest]; cbn in Haccepted.
  - injection Haccepted as <- <-. reflexivity.
  - cbn [app Main.arguments].
    destruct (arg =? "-p"); [apply IH; [cbn; lia | exact Haccepted] | ].
    destruct (arg =? "-s"); [apply IH; [cbn; lia | exact Haccepted] | ].
    destruct (arg =? "-nt"); [apply IH; [cbn; lia | exact Haccepted] | ].
    destruct (arg =? "-t").
    { destruct rest as [| file rest]; [discriminate Haccepted | ].
      cbn [app]. apply IH; [cbn; lia | exact Haccepted]. }
    destruct (arg =? "-"); apply IH; (cbn; lia) || exact Haccepted.
Qed.

(** X1.  A [-t] in option position that is the last argument makes [main]
    write [Missing filename for argument -t] on [std::cerr] and return
    [EXIT_FAILURE]; neither [scan] nor [parse] is called (the result is the
    same whatever they are), and what the earlier arguments printed stays
    printed. *)
Theorem main_missing_filename
    (scan_only : bool) (initial : Main.Driver) (scan parse : Main.Driver -> Main.ran)
    (pre : list string) (d : Main.Driver) (out : string) :
  Main.arguments pre initial EmptyString = Main.accepted d out ->
  Main.main scan_only initial scan parse (pre ++ ["-t"])%list
  = ({| Main.cout := out; Main.cerr := "Missing filename for argument -t" +:+ nl |},
     Some Main.EXIT_FAILURE).
Proof.
  intros Hpre. unfold Main.main.
  rewrite (arguments_app pre ["-t"] _ _ _ _ Hpre). reflexivity.
Qed.

Lemma main_missing_filename_witness :
  Main.main false sample_driver sample_parse sample_parse ["-p"; "prog.c"; "-t"]
  = ({| Main.cout := EmptyString; Main.cerr := "Missing filename for argument -t" +:+ nl |},
     Some Main.EXIT_FAILURE).
Proof.
  apply (main_missing_filename false sample_driver sample_parse sample_parse
           ["-p"; "prog.c"]
           (Main.set_input_filename (Main.set_trace_parsing sample_driver true) "prog.c")
           EmptyString).
  reflexivity.
Defined.

(** X2.  [-h] prints the usage and is then taken as the input file name: the
    test for [-h] is not part of the [else if] chain, whose last branch
    stores the argument in [input_filename].  So [main] with a last argument
    [-h] goes on to scan or parse the file [-h]. *)
Theorem main_help_is_an_input_filename
    (scan_only : bool) (initial : Main.Driver) (scan parse : Main.Driver -> Main.ran)
    (pre : list string) (d : Main.Driver) (out : string) :
  Main.arguments pre initial EmptyString = Main.accepted d out ->
  Main.main scan_only initial scan parse (pre ++ ["-h"])%list
  = Main.run scan_only scan parse (Main.set_input_filename d "-h") (out +:+ Main.usage).
Proof.
  intros Hpre. unfold Main.main.
  rewrite (arguments_app pre ["-h"] _ _ _ _ Hpre). reflexivity.
Qed.

Lemma main_help_is_an_input_filename_witness :
  Main.main false sample_driver sample_parse sample_parse ["prog.c"; "-h"]
  = ({| Main.cout := Main.usage; Main.cerr := "cannot open file" +:+ nl |},
     Some Main.EXIT_FAILURE).
Proof.
  refine (eq_trans
            (main_help_is_an_input_filename false sample_driver sample_parse sample_parse
               ["prog.c"] (Main.set_input_filename sample_driver "prog.c") EmptyString
               eq_refl) _).
  reflexivity.
Defined.

(** X3.  The argument after a [-t] in option position is the token file name
    and nothing else: it is not read as an option, whatever it is, and the
    loop goes on with the argument after it. *)
Theorem arguments_token_filename_is_not_an_option
    (pre post : list string) (file : string)
    (initial d : Main.Driver) (out0 out : string) :
  Main.arguments pre initial out0 = Main.accepted d out ->
  Main.arguments (pre ++ "-t" :: file :: post)%list initial out0
  = Main.arguments post (Main.set_tokens_out_filename d file) out.
Proof.
  intros Hpre. rewrite (arguments_app pre _ _ _ _ _ Hpre). reflexivity.
Qed.

Lemma arguments_token_filename_is_not_an_option_witness :
  Main.arguments ["-s"; "-t"; "-p"; "prog.c"] sample_driver EmptyString
  = Main.accepted
      {| Main.trace_parsing := false; Main.trace_scanning := true;
         Main.tokens_out_filename := "-p"; Main.input_filename := "prog.c" |}
      EmptyString.
Proof.
  refine (eq_trans
            (arguments_token_filename_is_not_an_option ["-s"] ["prog.c"] "-p"
               sample_driver (Main.set_trace_scanning sample_driver true)
               EmptyString EmptyString eq_refl) _).
  reflexivity.
Defined.

(** X4.  The last argument, when it is in option position and is not one of
    [-p], [-s], [-nt], [-t] and [-], is the input file name, whatever the
    arguments before it chose; a last argument [-] selects the standard
    input (the empty file name). *)
Theorem arguments_last_filename_wins
    (pre : list string) (file : string) (initial d : Main.Driver) (out0 out : string) :
  Main.arguments pre initial out0 = Main.accepted d out ->
  (file ∉ Main.options ->
   exists out',
     Main.arguments (pre ++ [file])%list initial out0
     = Main.accepted (Main.set_input_filename d file) out'
     /\ (file <> "-h" -> out' = out))
  /\ Main.arguments (pre ++ ["-"])%list initial out0
     = Main.accepted (Main.set_input_filename d EmptyString) out.
Proof.
  intros Hpre. split.
  - intros Hfile. rewrite (arguments_app pre _ _ _ _ _ Hpre). cbn [Main.arguments].
    unfold Main.options in Hfile.
    destruct (String.eqb_spec file "-p") as [-> | _]; [exfalso; apply Hfile; in_operators | ].
    destruct (String.eqb_spec file "-s") as [-> | _]; [exfalso; apply Hfile; in_operators | ].
    destruct (String.eqb_spec file "-nt") as [-> | _]; [exfalso; apply Hfile; in_operators | ].
    destruct (String.eqb_spec file "-t") as [-> | _]; [exfalso; apply Hfile; in_operators | ].
    destruct (String.eqb_spec file "-") as [-> | _]; [exfalso; apply Hfile; in_operators | ].
    eexists. split; [reflexivity | ].
    intros Hne. destruct (String.eqb_spec file "-h") as [-> | _]; [contradiction | reflexivity].
  - rewrite (arguments_app pre _ _ _ _ _ Hpre). reflexivity.
Qed.

Lemma arguments_last_filename_wins_witness :
  Main.arguments ["first.c"; "-"; "second.c"] sample_driver EmptyString
  = Main.accepted (Main.set_input_filename sample_driver "second.c") EmptyString.
Proof.
  destruct (arguments_last_filename_wins ["first.c"; "-"] "second.c"
              sample_driver (Main.set_input_filename sample_driver EmptyString)
              EmptyString EmptyString eq_refl) as (Hlast & _).
  destruct Hlast as (out' & Heq & Hout).
  - unfold Main.options. intros Hin.
    repeat (apply elem_of_cons in Hin; destruct Hin as [Hin | Hin]; [discriminate Hin | ]).
    apply elem_of_nil in Hin. exact Hin.
  - cbn [app] in Heq. rewrite Heq, Hout; [reflexivity | discriminate].
Defined.

(** X5.  [main] returns [EXIT_SUCCESS] exactly when the arguments are
    accepted and the scan returns (in a scan-only build) or the parse returns
    0 (otherwise).  It returns [EXIT_FAILURE] with nothing of its own on
    [std::cerr] exactly when the parse returns a non-zero result: every other
    failure writes a line there. *)
Theorem main_exit_status
    (scan_only : bool) (initial : Main.Driver) (scan parse : Main.Driver -> Main.ran)
    (argv : list string) :
  (snd (Main.main scan_only initial scan parse argv) = Some Main.EXIT_SUCCESS <->
   exists d out,
     Main.arguments argv initial EmptyString = Main.accepted d out
     /\ if scan_only then exists r, scan d = Main.returned r
        else parse d = Main.returned 0)
  /\ (snd (Main.main scan_only initial scan parse argv) = Some Main.EXIT_FAILURE
      /\ Main.cerr (fst (Main.main scan_only initial scan parse argv)) = EmptyString <->
      exists d out r,
        Main.arguments argv initial EmptyString = Main.accepted d out
        /\ scan_only = false /\ parse d = Main.returned r /\ r <> 0%Z).
Proof.
  assert (Hline : forall what, what +:+ nl <> EmptyString)
    by (intros [| c what]; discriminate).
  unfold Main.main, Main.run.
  destruct (Main.arguments argv initial EmptyString) as [d out | out];
    [destruct scan_only;
     [destruct (scan d) as [r | what | ] eqn:Hran
     | destruct (parse d) as [r | what | ] eqn:Hran; [destruct (Z.eqb_spec r 0) | | ]] | ];
    cbn; try specialize (Hline what);
    (split; split; intros H);
    repeat match goal with
           | H : _ /\ _ |- _ => destruct H
           | H : exists _, _ |- _ => destruct H
           end;
    simplify_eq; try contradiction; try congruence; eauto 10.
Qed.

(** X6.  The argument loop only ever sets the two trace flags: a flag that
    is set on entry is set on exit, and a flag whose option does not occur
    among the arguments is left as it was.  The token file name is left as
    it was when neither [-nt] nor [-t] occurs, and nothing is printed when
    [-h] does not occur. *)
Theorem arguments_change_only_what_is_named
    (argv : list string) (d d' : Main.Driver) (out out' : string) :
  Main.arguments argv d out = Main.accepted d' out' ->
  (Main.trace_parsing d = true -> Main.trace_parsing d' = true)
  /\ (Main.trace_scanning d = true -> Main.trace_scanning d' = true)
  /\ ("-p" ∉ argv -> Main.trace_parsing d' = Main.trace_parsing d)
  /\ ("-s" ∉ argv -> Main.trace_scanning d' = Main.trace_scanning d)
  /\ ("-nt" ∉ argv -> "-t" ∉ argv ->
      Main.tokens_out_filename d' = Main.tokens_out_filename d)
  /\ ("-h" ∉ argv -> out' = out).
Proof.
  revert d d' out out'.
  induction argv as [argv IH] using (induction_ltof1 _ (@List.length string)).
  unfold ltof in IH. intros d d' out out' Haccepted.
  destruct argv as [| arg rest]; cbn in Haccepted.
  { injection Haccepted as <- <-. repeat split; auto. }
  assert (Hhelp : "-h" ∉ arg :: rest ->
                  (if arg =? "-h" then out +:+ Main.usage else out) = out).
  { intros Hnot. destruct (String.eqb_spec arg "-h") as [-> | _]; [ | reflexivity].
    exfalso. apply Hnot, list_elem_of_here. }
  assert (Hstep : forall d1 rest1,
             length rest1 < length (arg :: rest) ->
             (forall x, x ∈ rest1 -> x ∈ arg :: rest) ->
             Main.arguments rest1 d1 (if arg =? "-h" then out +:+ Main.usage else out)
             = Main.accepted d' out' ->
             (Main.trace_parsing d1 = true -> Main.trace_parsing d' = true)
             /\ (Main.trace_scanning d1 = true -> Main.trace_scanning d' = true)
             /\ ("-p" ∉ arg :: rest -> Main.trace_parsing d' = Main.trace_parsing d1)
             /\ ("-s" ∉ arg :: rest -> Main.trace_scanning d' = Main.trace_scanning d1)
             /\ ("-nt" ∉ arg :: rest -> "-t" ∉ arg :: rest ->
                 Main.tokens_out_filename d' = Main.tokens_out_filename d1)
             /\ ("-h" ∉ arg :: rest -> out' = out)).
  { intros d1 rest1 Hlen Hsub Hrest.
    destruct (IH rest1 Hlen d1 d' _ out' Hrest) as (H1 & H2 & H3 & H4 & H5 & H6).
    split; [exact H1 | ]. split; [exact H2 | ].
    split; [intros Hnot; apply H3; intros Hin; apply Hnot, Hsub, Hin | ].
    split; [intros Hnot; apply H4; intros Hin; apply Hnot, Hsub, Hin | ].
    split; [intros Hnt Ht; apply H5; intros Hin; [apply Hnt | apply Ht]; apply Hsub, Hin | ].
    intros Hnot. rewrite <- (Hhelp Hnot). apply H6. intros Hin. apply Hnot, Hsub, Hin. }
  assert (Htail : forall x, x ∈ rest -> x ∈ arg :: rest)
    by (intros x Hx; apply list_elem_of_further, Hx).
  assert (Hhere : arg ∈ arg :: rest) by apply list_elem_of_here.
  destruct (String.eqb_spec arg "-p") as [-> | _];
    [ | destruct (String.eqb_spec arg "-s") as [-> | _];
        [ | destruct (String.eqb_spec arg "-nt") as [-> | _];
            [ | destruct (String.eqb_spec arg "-t") as [-> | _];
                [ | destruct (String.eqb_spec arg "-") as [-> | _] ] ] ] ].
  4: { destruct rest as [| file rest]; [discriminate Haccepted | ].
       destruct (Hstep _ rest ltac:(cbn; lia)
                   ltac:(intros x Hx; apply list_elem_of_further, list_elem_of_further, Hx)
                   Haccepted)
         as (H1 & H2 & H3 & H4 & H5 & H6).
       split; [exact H1 | ]. split; [exact H2 | ].
       split; [exact H3 | ]. split; [exact H4 | ].
       split; [intros _ Ht; contradiction | exact H6]. }
  all: destruct (Hstep _ rest ltac:(cbn; lia) Htail Haccepted)
         as (H1 & H2 & H3 & H4 & H5 & H6).
  all: split; [intros Hd; apply H1; cbn; auto | ].
  all: split; [intros Hd; apply H2; cbn; auto | ].
  all: split; [intros Hnot; first [contradiction | rewrite (H3 Hnot); reflexivity] | ].
  all: split; [intros Hnot; first [contradiction | rewrite (H4 Hnot); reflexivity] | ].
  all: split; [intros Hnt Ht; first [contradiction | rewrite (H5 Hnt Ht); reflexivity]
              | exact H6].
Qed.

Lemma arguments_change_only_what_is_named_witness :
  Main.trace_scanning (Main.set_input_filename (Main.set_trace_parsing sample_driver true)
                         "prog.c")
  = Main.trace_scanning sample_driver.
Proof.
  destruct (arguments_change_only_what_is_named ["-p"; "prog.c"] sample_driver
              (Main.set_input_filename (Main.set_trace_parsing sample_driver true) "prog.c")
              EmptyString EmptyString eq_refl) as (_ & _ & _ & Hscanning & _).
  apply Hscanning. intros Hin.
  repeat (apply elem_of_cons in Hin; destruct Hin as [Hin | Hin]; [discriminate Hin | ]).
  apply elem_of_nil in Hin. exact Hin.
Defined.

(** ** The tree dumps *)

Lemma string_app_assoc (a b c : string) : (a +:+ b) +:+ c = a +:+ b +:+ c.
Proof.
  induction a as [| ch a IH].
  - reflexivity.
  - change (String ch ((a +:+ b) +:+ c) = String ch (a +:+ b +:+ c)). rewrite IH. reflexivity.
Qed.

Lemma string_app_nil_r (a : string) : a +:+ EmptyString = a.
Proof.
  induction a as [| ch a IH].
  - reflexivity.
  - change (String ch (a +:+ EmptyString) = String ch a). rewrite IH. reflexivity.
Qed.

Lemma string_app_nil_l (a : string) : EmptyString +:+ a = a.
Proof. reflexivity. Qed.

(** Appending the dump of each element to a string, from left to right. *)
Lemma foldl_append {A} (f : A -> string) (l : list A) (str : string) :
  foldl (fun str a => str +:+ f a) str l
  = str +:+ foldr (fun a rest => f a +:+ rest) EmptyString l.
Proof.
  revert str. induction l as [| a l IH]; intros str; cbn [foldl foldr].
  - symmetry. apply string_app_nil_r.
  - rewrite IH, string_app_assoc. reflexivity.
Qed.

Section Outline.
Variable indent_length : nat.

Lemma render_outline_app (indent : nat) (l1 l2 : list (nat * string)) :
  render_outline indent_length indent (l1 ++ l2)%list
  = render_outline indent_length indent l1 +:+ render_outline indent_length indent l2.
Proof.
  induction l1 as [| l l1 IH]; cbn [app render_outline foldr].
  - reflexivity.
  - fold (render_outline indent_length indent (l1 ++ l2)%list).
    fold (render_outline indent_length indent l1).
    rewrite IH, ?string_app_assoc. reflexivity.
Qed.

Lemma render_outline_deeper (indent : nat) (lines : list (nat * string)) :
  render_outline indent_length indent (deeper lines)
  = render_outline indent_length (indent + indent_length) lines.
Proof.
  induction lines as [| l lines IH]; cbn [deeper map render_outline foldr fst snd].
  - reflexivity.
  - fold (deeper lines). fold (render_outline indent_length indent (deeper lines)).
    fold (render_outline indent_length (indent + indent_length) lines).
    rewrite IH. do 2 f_equal. lia.
Qed.

Lemma render_outline_cons (indent : nat) (text : string) (lines : list (nat * string)) :
  render_outline indent_length indent ((0, text) :: deeper lines)
  = spaces indent +:+ text +:+ nl
    +:+ render_outline indent_length (indent + indent_length) lines.
Proof.
  cbn [render_outline foldr fst snd].
  fold (render_outline indent_length indent (deeper lines)).
  rewrite render_outline_deeper. do 2 f_equal. lia.
Qed.

Lemma render_outline_leaf (indent : nat) (text : string) :
  render_outline indent_length indent [(0, text)] = spaces indent +:+ text +:+ nl.
Proof.
  cbn [render_outline foldr fst snd]. rewrite string_app_nil_r. do 2 f_equal. lia.
Qed.

Lemma length_deeper (lines : list (nat * string)) : length (deeper lines) = length lines.
Proof. apply length_map. Qed.

(** X7.  The dump of an expression is its outline as text: one line per
    node, the node before its children and the children from left to right,
    a node at depth [d] below the dumped one indented by
    [indent + d * indent_length] spaces, and every line ended by a newline.
    Only the indentation depends on [indent]. *)
Theorem Tree_is_the_rendered_outline :
  (forall v indent,
      ValueExpression_Tree indent_length v indent
      = render_outline indent_length indent (ValueExpression_outline v)
      /\ length (ValueExpression_outline v) = ValueExpression_nodes v)
  /\ (forall l indent,
      LValueExpression_Tree indent_length l indent
      = render_outline indent_length indent (LValueExpression_outline l)
      /\ length (LValueExpression_outline l) = LValueExpression_nodes l)
  /\ (forall b indent,
      BooleanExpression_Tree indent_length b indent
      = render_outline indent_length indent (BooleanExpression_outline b)
      /\ length (BooleanExpression_outline b) = BooleanExpression_nodes b).
Proof.
  apply expression_induction.
  all: try (intros; split;
            [cbn [ValueExpression_Tree LValueExpression_Tree BooleanExpression_Tree
                  ValueExpression_outline LValueExpression_outline
                  BooleanExpression_outline];
             rewrite render_outline_leaf; reflexivity
            | reflexivity]).
  - (* ValueCast *)
    intros exp IH indent. destruct (IH (indent + indent_length)) as [Htree Hnodes].
    split.
    + cbn [ValueExpression_Tree ValueExpression_outline].
      rewrite render_outline_cons, Htree, ?string_app_assoc. reflexivity.
    + cbn. rewrite length_deeper, Hnodes. reflexivity.
  - (* unary value *)
    intros op exp loc IH indent. destruct (IH (indent + indent_length)) as [Htree Hnodes].
    split.
    + cbn [ValueExpression_Tree ValueExpression_outline].
      rewrite render_outline_cons, Htree, ?string_app_assoc. reflexivity.
    + cbn. rewrite length_deeper, Hnodes. reflexivity.
  - (* binary value *)
    intros op exp1 exp2 loc IH1 IH2 indent.
    destruct (IH1 (indent + indent_length)) as [Htree1 Hnodes1].
    destruct (IH2 (indent + indent_length)) as [Htree2 Hnodes2].
    split.
    + cbn [ValueExpression_Tree ValueExpression_outline].
      rewrite render_outline_cons, render_outline_app, Htree1, Htree2, ?string_app_assoc.
      reflexivity.
    + cbn. rewrite length_deeper, length_app, Hnodes1, Hnodes2. reflexivity.
  - (* lvalue as value *)
    intros l IH indent. exact (IH indent).
  - (* assignment *)
    intros target exp loc IH1 IH2 indent.
    destruct (IH1 (indent + indent_length)) as [Htree1 Hnodes1].
    destruct (IH2 (indent + indent_length)) as [Htree2 Hnodes2].
    split.
    + cbn [ValueExpression_Tree ValueExpression_outline].
      rewrite render_outline_cons, render_outline_app, Htree1, Htree2, ?string_app_assoc.
      reflexivity.
    + cbn. rewrite length_deeper, length_app, Hnodes1, Hnodes2. reflexivity.
  - (* call *)
    intros name args loc IH indent. split.
    + assert (Hargs :
                foldr (fun a rest =>
                         ValueExpression_Tree indent_length a (indent + indent_length)
                         +:+ rest) EmptyString args
                = render_outline indent_length (indent + indent_length)
                    (concat (map ValueExpression_outline args))).
      { induction IH as [| a args Ha _ IHargs]; cbn [foldr map concat].
        - reflexivity.
        - rewrite render_outline_app, IHargs. f_equal. apply Ha. }
      cbn [ValueExpression_Tree ValueExpression_outline].
      rewrite render_outline_cons, foldl_append, Hargs, ?string_app_assoc. reflexivity.
    + assert (Hargs : length (concat (map ValueExpression_outline args))
                      = list_sum (map ValueExpression_nodes args)).
      { induction IH as [| a args Ha _ IHargs]; cbn [map concat list_sum foldr].
        - reflexivity.
        - rewrite length_app, IHargs. f_equal. apply (Ha 0). }
      cbn [ValueExpression_outline ValueExpression_nodes length].
      rewrite length_deeper, Hargs. reflexivity.
  - (* array access *)
    intros name index loc IH indent. destruct (IH (indent + indent_length)) as [Htree Hnodes].
    split.
    + cbn [LValueExpression_Tree LValueExpression_outline].
      rewrite render_outline_cons, Htree, ?string_app_assoc. reflexivity.
    + cbn. rewrite length_deeper, Hnodes. reflexivity.
  - (* BooleanCast *)
    intros exp IH indent. destruct (IH (indent + indent_length)) as [Htree Hnodes].
    split.
    + cbn [BooleanExpression_Tree BooleanExpression_outline].
      rewrite render_outline_cons, Htree, ?string_app_assoc. reflexivity.
    + cbn. rewrite length_deeper, Hnodes. reflexivity.
  - (* unary boolean *)
    intros op exp loc IH indent. destruct (IH (indent + indent_length)) as [Htree Hnodes].
    split.
    + cbn [BooleanExpression_Tree BooleanExpression_outline].
      rewrite render_outline_cons, Htree, ?string_app_assoc. reflexivity.
    + cbn. rewrite length_deeper, Hnodes. reflexivity.
  - (* binary boolean *)
    intros op exp1 exp2 loc IH1 IH2 indent.
    destruct (IH1 (indent + indent_length)) as [Htree1 Hnodes1].
    destruct (IH2 (indent + indent_length)) as [Htree2 Hnodes2].
    split.
    + cbn [BooleanExpression_Tree BooleanExpression_outline].
      rewrite render_outline_cons, render_outline_app, Htree1, Htree2, ?string_app_assoc.
      reflexivity.
    + cbn. rewrite length_deeper, length_app, Hnodes1, Hnodes2. reflexivity.
  - (* relational *)
    intros op exp1 exp2 loc IH1 IH2 indent.
    destruct (IH1 (indent + indent_length)) as [Htree1 Hnodes1].
    destruct (IH2 (indent + indent_length)) as [Htree2 Hnodes2].
    split.
    + cbn [BooleanExpression_Tree BooleanExpression_outline].
      rewrite render_outline_cons, render_outline_app, Htree1, Htree2, ?string_app_assoc.
      reflexivity.
    + cbn. rewrite length_deeper, length_app, Hnodes1, Hnodes2. reflexivity.
Qed.
End Outline.

Lemma returns_text_append_printed (str : string) (p : printed) :
  returns_text (append_printed str p) = returns_text p.
Proof. destruct p; reflexivity. Qed.

Lemma returns_text_print_each {A} (Tree : A -> printed) (l : list A) (str : string) :
  returns_text (print_each Tree l str) = forallb (fun a => returns_text (Tree a)) l.
Proof.
  revert str. induction l as [| a l IH]; intros str; cbn [print_each forallb].
  - reflexivity.
  - destruct (Tree a); cbn [returns_text andb]; [apply IH | reflexivity | reflexivity].
Qed.

Lemma returns_text_print_cases (Tree : Statement -> printed) (indent_length indent : nat)
    (case_values : list (option Z)) (case_bodies : list (list Statement)) (str : string) :
  returns_text (print_cases indent_length Tree indent case_values case_bodies str)
  = (length case_bodies <=? length case_values)%nat
    && forallb (forallb (fun s => returns_text (Tree s))) case_bodies.
Proof.
  revert case_values str.
  induction case_bodies as [| case_body case_bodies IH]; intros case_values str;
    cbn [print_cases forallb length].
  - reflexivity.
  - destruct case_values as [| case_value case_values]; [reflexivity | ].
    pose proof (returns_text_print_each Tree case_body
                  (str +:+ case_line indent_length indent case_value)) as Hbody.
    destruct (print_each Tree case_body _) as [str' | | ]; cbn [returns_text] in Hbody;
      rewrite <- Hbody; cbn [length Nat.leb].
    + rewrite IH. cbn [andb]. reflexivity.
    + cbn [returns_text andb]. rewrite andb_false_r. reflexivity.
    + cbn [returns_text andb]. rewrite andb_false_r. reflexivity.
Qed.

Lemma forallb_Forall_eq {A} (f g : A -> bool) (l : list A) :
  Forall (fun a => f a = g a) l -> forallb f l = forallb g l.
Proof.
  induction 1 as [| a l Ha _ IH]; cbn [forallb]; [reflexivity | rewrite Ha, IH; reflexivity].
Qed.

Section Printable.
Variable indent_length : nat.
Variable SymbolType_Name : SymbolType -> string.

Lemma returns_text_Expression_Tree (e : Expression) (indent : nat) :
  returns_text (Expression_Tree indent_length e indent) = Expression_printable e.
Proof. destruct e; reflexivity. Qed.

Lemma Statement_Tree_if condition then_block else_block loc indent :
  Statement_Tree indent_length SymbolType_Name
    (IfElseStatement condition then_block else_block loc) indent
  = match append_printed
            (spaces indent +:+ "if" +:+ nl
             +:+ spaces (indent + indent_length) +:+ "condition" +:+ nl
             +:+ BooleanExpression_Tree indent_length condition (indent + 2 * indent_length)
             +:+ spaces (indent + indent_length) +:+ "then" +:+ nl)
            (StatementBlock_Tree indent_length SymbolType_Name then_block
               (indent + 2 * indent_length)) with
    | Text str =>
        append_printed (str +:+ spaces (indent + indent_length) +:+ "else" +:+ nl)
          (StatementBlock_Tree indent_length SymbolType_Name else_block
             (indent + 2 * indent_length))
    | failure => failure
    end.
Proof. reflexivity. Qed.

Lemma Statement_Tree_while condition body loc indent :
  Statement_Tree indent_length SymbolType_Name (WhileStatement condition body loc) indent
  = append_printed
      (spaces indent +:+ "while" +:+ nl
       +:+ spaces (indent + indent_length) +:+ "condition" +:+ nl
       +:+ BooleanExpression_Tree indent_length condition (indent + 2 * indent_length)
       +:+ spaces (indent + indent_length) +:+ "do" +:+ nl)
      (StatementBlock_Tree indent_length SymbolType_Name body (indent + 2 * indent_length)).
Proof. reflexivity. Qed.

Lemma Statement_Tree_for initializer condition step body loc indent :
  Statement_Tree indent_length SymbolType_Name
    (ForStatement initializer condition step body loc) indent
  = match print_each
            (fun i => Statement_Tree indent_length SymbolType_Name i
                        (indent + 2 * indent_length))
            initializer
            (spaces indent +:+ "for" +:+ nl
             +:+ spaces (indent + indent_length) +:+ "init" +:+ nl) with
    | Text str =>
      match append_printed
              (str +:+ spaces (indent + indent_length) +:+ "condition" +:+ nl
               +:+ BooleanExpression_Tree indent_length condition
                     (indent + 2 * indent_length)
               +:+ spaces (indent + indent_length) +:+ "step" +:+ nl)
              (Expression_Tree indent_length step (indent + 2 * indent_length)) with
      | Text str =>
          append_printed (str +:+ spaces (indent + indent_length) +:+ "do" +:+ nl)
            (StatementBlock_Tree indent_length SymbolType_Name body
               (indent + 2 * indent_length))
      | failure => failure
      end
    | failure => failure
    end.
Proof. reflexivity. Qed.

Lemma StatementBlock_Tree_block statements loc indent :
  StatementBlock_Tree indent_length SymbolType_Name (Block statements loc) indent
  = print_each
      (fun s => Statement_Tree indent_length SymbolType_Name s (indent + indent_length))
      statements (spaces indent +:+ "block" +:+ nl).
Proof. reflexivity. Qed.

Lemma SwitchStatement_Tree_switch exp case_values case_bodies loc indent :
  SwitchStatement_Tree indent_length SymbolType_Name
    (Switch (Some exp) case_values case_bodies loc) indent
  = print_cases indent_length
      (fun s => Statement_Tree indent_length SymbolType_Name s (indent + 2 * indent_length))
      indent case_values case_bodies
      (spaces indent +:+ "switch" +:+ nl
       +:+ spaces (indent + indent_length) +:+ "on" +:+ nl
       +:+ ValueExpression_Tree indent_length exp (indent + 2 * indent_length)).
Proof. reflexivity. Qed.

(** When the dump of a statement, a block or a switch returns. *)
Lemma Tree_returns_when_printable :
  (forall s indent,
      returns_text (Statement_Tree indent_length SymbolType_Name s indent)
      = Statement_printable s)
  /\ (forall b indent,
      returns_text (StatementBlock_Tree indent_length SymbolType_Name b indent)
      = StatementBlock_printable b)
  /\ (forall s indent,
      returns_text (SwitchStatement_Tree indent_length SymbolType_Name s indent)
      = SwitchStatement_printable s).
Proof.
  apply statement_induction; try reflexivity.
  - intros e indent. apply returns_text_Expression_Tree.
  - intros b IH indent. apply IH.
  - intros condition then_block else_block loc IH1 IH2 indent.
    rewrite Statement_Tree_if.
    change (Statement_printable (IfElseStatement condition then_block else_block loc))
      with (StatementBlock_printable then_block && StatementBlock_printable else_block).
    rewrite <- (IH1 (indent + 2 * indent_length)), <- (IH2 (indent + 2 * indent_length)).
    destruct (StatementBlock_Tree indent_length SymbolType_Name then_block _);
      cbn [append_printed returns_text andb];
      [apply returns_text_append_printed | reflexivity | reflexivity].
  - intros s IH indent. apply IH.
  - intros condition body loc IH indent.
    rewrite Statement_Tree_while, returns_text_append_printed. apply IH.
  - intros initializer condition step body loc IHinit IHbody indent.
    rewrite Statement_Tree_for.
    change (Statement_printable (ForStatement initializer condition step body loc))
      with (forallb Statement_printable initializer
            && Expression_printable step && StatementBlock_printable body).
    rewrite <- (IHbody (indent + 2 * indent_length)),
      <- (returns_text_Expression_Tree step (indent + 2 * indent_length)).
    rewrite <- (forallb_Forall_eq
                  (fun i => returns_text
                              (Statement_Tree indent_length SymbolType_Name i
                                 (indent + 2 * indent_length)))
                  Statement_printable initializer)
      by (eapply Forall_impl; [exact IHinit | intros i Hi; apply Hi]).
    rewrite <- (returns_text_print_each
                  (fun i => Statement_Tree indent_length SymbolType_Name i
                              (indent + 2 * indent_length))
                  initializer
                  (spaces indent +:+ "for" +:+ nl
                   +:+ spaces (indent + indent_length) +:+ "init" +:+ nl)).
    destruct (print_each _ initializer _) as [str | | ]; cbn [returns_text andb];
      [ | reflexivity | reflexivity].
    destruct (Expression_Tree indent_length step _) as [str' | | ];
      cbn [append_printed returns_text andb];
      [apply returns_text_append_printed | reflexivity | reflexivity].
  - intros statements loc IH indent.
    rewrite StatementBlock_Tree_block, returns_text_print_each.
    change (StatementBlock_printable (Block statements loc))
      with (forallb Statement_printable statements).
    apply forallb_Forall_eq.
    eapply Forall_impl; [exact IH | intros s Hs; apply Hs].
  - intros exp case_values case_bodies loc IH indent.
    destruct exp as [exp | ]; [ | reflexivity].
    rewrite SwitchStatement_Tree_switch, returns_text_print_cases.
    change (SwitchStatement_printable (Switch (Some exp) case_values case_bodies loc))
      with (true && (length case_bodies <=? length case_values)%nat
            && forallb (forallb Statement_printable) case_bodies).
    cbn [andb]. f_equal.
    apply forallb_Forall_eq. eapply Forall_impl; [exact IH | ].
    intros case_body Hbody. apply forallb_Forall_eq.
    eapply Forall_impl; [exact Hbody | intros s Hs; apply Hs].
Qed.

(** X8.  The dump of a statement returns text exactly when nothing in the
    statement keeps it from returning: no expression statement and no step of
    a [for] is a string literal (whose [Tree] is [assert(false)]), every
    switch has had its expression set (it is dereferenced) and has at least
    as many case values as case bodies ([case_values[i]] is read for every
    body).  The dump of a program returns exactly when that holds for the
    body of every function.  The indentation does not matter. *)
Theorem Tree_returns_exactly_when_printable :
  (forall s indent,
      returns_text (Statement_Tree indent_length SymbolType_Name s indent)
      = Statement_printable s)
  /\ (forall definitions indent,
      returns_text (Program_Tree indent_length SymbolType_Name definitions indent)
      = forallb Definition_printable definitions).
Proof.
  destruct Tree_returns_when_printable as (Hstatement & Hblock & _).
  split; [exact Hstatement | ].
  intros definitions indent. unfold Program_Tree.
  rewrite returns_text_print_each. apply forallb_Forall_eq.
  apply Forall_forall. intros [f | f | f] _; cbn [Definition_Tree Definition_printable].
  - reflexivity.
  - unfold FunctionDefinition_Tree. rewrite returns_text_append_printed. apply Hblock.
  - unfold FunctionDefinition_Tree. rewrite returns_text_append_printed. apply Hblock.
Qed.

(** X10.  The step of a [for] is the one expression that its constructor
    stores as it is given, without a coercion: the constructor returns
    exactly when the condition has a category, whatever the step is, and a
    string literal as step is only met by the dump, which then stops at the
    assertion of [StringLiteral::Tree] once the initializers are dumped. *)
Theorem ForStatement_step_is_stored_uncoerced
    (initializer : list Statement) (condition step : Expression)
    (body : StatementBlock) (loc : Location) :
  returns (ForStatement.new initializer condition step body loc) = has_category condition
  /\ forall node,
      ForStatement.new initializer condition step body loc = Return node ->
      (exists stored l,
          node = ForStatement initializer stored step body l
          /\ coerced_to_boolean condition stored)
      /\ forall indent,
          returns_text (Statement_Tree indent_length SymbolType_Name node indent)
          = forallb Statement_printable initializer
            && Expression_printable step && StatementBlock_printable body
          /\ (forallb Statement_printable initializer = true ->
              Expression_printable step = false ->
              Statement_Tree indent_length SymbolType_Name node indent = assertion_failed).
Proof.
  destruct Tree_returns_when_printable as (Hstatement & _ & _).
  unfold ForStatement.new.
  split; [destruct condition; reflexivity | ].
  intros node Hnode.
  destruct condition as [l | v | b | value l]; cbn in Hnode; try discriminate Hnode;
    injection Hnode as <-.
  all: split; [eexists _, _; split; reflexivity | ].
  all: intros indent; split; [apply Hstatement | ].
  all: intros Hinit Hstep; rewrite Statement_Tree_for.
  all: pose proof (returns_text_print_each
                     (fun i => Statement_Tree indent_length SymbolType_Name i
                                 (indent + 2 * indent_length))
                     initializer
                     (spaces indent +:+ "for" +:+ nl
                      +:+ spaces (indent + indent_length) +:+ "init" +:+ nl)) as Heach.
  all: rewrite (forallb_Forall_eq _ Statement_printable), Hinit in Heach
         by (apply Forall_forall; intros i _; apply Hstatement).
  all: destruct (print_each _ initializer _) as [str | | ]; try discriminate Heach.
  all: destruct step; try discriminate Hstep; reflexivity.
Qed.
End Printable.

(** ** Complete lines *)

Lemma ends_with_newline_app (a b : string) :
  ends_with_newline (a +:+ b)
  = match b with
    | EmptyString => ends_with_newline a
    | _ => ends_with_newline b
    end.
Proof.
  induction a as [| c a IH].
  - destruct b; reflexivity.
  - change (ends_with_newline (String c (a +:+ b))
            = match b with
              | EmptyString => ends_with_newline (String c a)
              | _ => ends_with_newline b
              end).
    cbn [ends_with_newline]. rewrite IH.
    destruct a as [| c' a]; destruct b as [| c'' b]; reflexivity.
Qed.

Lemma ends_with_newline_append (a b : string) :
  ends_with_newline b = true -> ends_with_newline (a +:+ b) = true.
Proof.
  intros Hb. rewrite ends_with_newline_app. destruct b; [discriminate Hb | exact Hb].
Qed.

Lemma ends_with_newline_after (a : string) (c : ascii) (t b : string) :
  ends_with_newline (a +:+ String c t +:+ b) = ends_with_newline (String c t +:+ b).
Proof. rewrite ends_with_newline_app. reflexivity. Qed.

Lemma append_not_empty_r (a : string) (c : ascii) (t : string) :
  a +:+ String c t <> EmptyString.
Proof. destruct a; discriminate. Qed.

Lemma append_not_empty_l (a b : string) : a <> EmptyString -> a +:+ b <> EmptyString.
Proof. destruct a; [contradiction | discriminate]. Qed.

Lemma ends_with_newline_foldl {A} (f : A -> string) (l : list A) (str : string) :
  ends_with_newline str = true ->
  Forall (fun a => ends_with_newline (f a) = true) l ->
  ends_with_newline (foldl (fun str a => str +:+ f a) str l) = true.
Proof.
  intros Hstr Hl. revert str Hstr.
  induction Hl as [| a l Ha _ IH]; intros str Hstr; cbn [foldl].
  - exact Hstr.
  - apply IH, ends_with_newline_append, Ha.
Qed.

Lemma complete_lines_append_printed (str : string) (p : printed) :
  complete_lines p = true -> complete_lines (append_printed str p) = true.
Proof.
  destruct p as [t | | ]; cbn [append_printed complete_lines]; [ | reflexivity | reflexivity].
  apply ends_with_newline_append.
Qed.

Lemma complete_lines_print_each {A} (Tree : A -> printed) (l : list A) (str : string) :
  ends_with_newline str = true ->
  Forall (fun a => complete_lines (Tree a) = true) l ->
  complete_lines (print_each Tree l str) = true.
Proof.
  intros Hstr Hl. revert str Hstr.
  induction Hl as [| a l Ha _ IH]; intros str Hstr; cbn [print_each].
  - exact Hstr.
  - destruct (Tree a) as [t | | ]; [ | reflexivity | reflexivity].
    apply IH, ends_with_newline_append, Ha.
Qed.

Lemma complete_lines_print_cases (Tree : Statement -> printed) (indent_length indent : nat)
    (case_values : list (option Z)) (case_bodies : list (list Statement)) (str : string) :
  ends_with_newline str = true ->
  Forall (Forall (fun s => complete_lines (Tree s) = true)) case_bodies ->
  complete_lines (print_cases indent_length Tree indent case_values case_bodies str) = true.
Proof.
  intros Hstr Hbodies. revert case_values str Hstr.
  induction Hbodies as [| case_body case_bodies Hbody _ IH]; intros case_values str Hstr;
    cbn [print_cases].
  - exact Hstr.
  - destruct case_values as [| case_value case_values]; [reflexivity | ].
    pose proof (complete_lines_print_each Tree case_body
                  (str +:+ case_line indent_length indent case_value)) as Heach.
    destruct (print_each Tree case_body _) as [str' | | ]; [ | reflexivity | reflexivity].
    apply IH, Heach; [ | exact Hbody].
    unfold case_line. do 3 apply ends_with_newline_append. reflexivity.
Qed.

(** The last dump of a sequence decides how the text ends, when it is not
    empty. *)
Lemma print_each_last {A} (Tree : A -> printed) (l : list A) (a : A) (str : string) :
  print_each Tree (l ++ [a])%list str
  = match print_each Tree l str with
    | Text str => append_printed str (Tree a)
    | failure => failure
    end.
Proof.
  revert str. induction l as [| b l IH]; intros str; cbn [app print_each].
  - destruct (Tree a); reflexivity.
  - destruct (Tree b); [apply IH | reflexivity | reflexivity].
Qed.

Section CompleteLines.
Variable indent_length : nat.
Variable SymbolType_Name : SymbolType -> string.

Ltac line_by_line :=
  repeat first
    [ reflexivity
    | assumption
    | match goal with
      | IH : forall indent, ends_with_newline _ = true |- _ => apply IH
      end
    | apply ends_with_newline_append ].

Lemma Expression_Tree_ends_with_newline :
  (forall v indent, ends_with_newline (ValueExpression_Tree indent_length v indent) = true)
  /\ (forall l indent, ends_with_newline (LValueExpression_Tree indent_length l indent) = true)
  /\ (forall b indent, ends_with_newline (BooleanExpression_Tree indent_length b indent) = true).
Proof.
  apply expression_induction; intros;
    cbn [ValueExpression_Tree LValueExpression_Tree BooleanExpression_Tree];
    try solve [line_by_line].
  apply ends_with_newline_foldl; [line_by_line | ].
  eapply Forall_impl; [eassumption | ]. intros a Ha. apply Ha.
Qed.

Lemma Statement_Tree_complete_lines :
  (forall s indent,
      complete_lines (Statement_Tree indent_length SymbolType_Name s indent) = true)
  /\ (forall b indent,
      complete_lines (StatementBlock_Tree indent_length SymbolType_Name b indent) = true)
  /\ (forall s indent,
      complete_lines (SwitchStatement_Tree indent_length SymbolType_Name s indent) = true).
Proof.
  destruct Expression_Tree_ends_with_newline as (Hvalue & _ & Hboolean).
  apply statement_induction.
  - intros loc indent. cbn. line_by_line.
  - intros [loc | v | b | value loc] indent; cbn; [line_by_line | apply Hvalue | apply Hboolean
                                                    | reflexivity].
  - intros d indent. cbn [Statement_Tree complete_lines]. unfold VariableDeclaration_Tree.
    line_by_line.
  - intros loc indent. cbn. line_by_line.
  - intros loc indent. cbn. line_by_line.
  - intros loc indent. cbn. line_by_line.
  - intros [exp | ] loc indent; cbn [Statement_Tree complete_lines].
    + repeat first [apply Hvalue | apply ends_with_newline_append].
    + rewrite !ends_with_newline_app. reflexivity.
  - intros b IH indent. apply IH.
  - intros condition then_block else_block loc IH1 IH2 indent.
    rewrite Statement_Tree_if.
    destruct (StatementBlock_Tree indent_length SymbolType_Name then_block _);
      cbn [append_printed complete_lines]; [ | reflexivity | reflexivity].
    apply complete_lines_append_printed, IH2.
  - intros s IH indent. apply IH.
  - intros condition body loc IH indent.
    rewrite Statement_Tree_while. apply complete_lines_append_printed, IH.
  - intros initializer condition step body loc IHinit IHbody indent.
    rewrite Statement_Tree_for.
    destruct (print_each _ initializer _) as [str | | ]; [ | reflexivity | reflexivity].
    destruct (Expression_Tree indent_length step _) as [str' | | ];
      cbn [append_printed complete_lines]; [ | reflexivity | reflexivity].
    apply complete_lines_append_printed, IHbody.
  - intros statements loc IH indent.
    rewrite StatementBlock_Tree_block. apply complete_lines_print_each.
    + line_by_line.
    + eapply Forall_impl; [exact IH | intros s Hs; apply Hs].
  - intros [exp | ] case_values case_bodies loc IH indent; [ | reflexivity].
    rewrite SwitchStatement_Tree_switch. apply complete_lines_print_cases.
    + repeat first [apply Hvalue | apply ends_with_newline_append].
    + eapply Forall_impl; [exact IH | ]. intros case_body Hbody.
      eapply Forall_impl; [exact Hbody | intros s Hs; apply Hs].
Qed.

(** X9.  Every dump of a statement, and so of a function, is made of
    complete lines: when it returns, the text ends with a newline.  The dump
    of a field is the exception: without a value it ends with the name of the
    type, with no newline of its own.  A program dump therefore ends with a
    newline unless its last definition is such a field. *)
Theorem Tree_ends_with_newline_except_after_a_field_without_value :
  (forall s indent str,
      Statement_Tree indent_length SymbolType_Name s indent = Text str ->
      ends_with_newline str = true)
  /\ (forall f indent str,
      FunctionDefinition_Tree indent_length SymbolType_Name f indent = Text str ->
      ends_with_newline str = true)
  /\ (forall f indent,
      ends_with_newline (FieldDefinition_Tree SymbolType_Name f indent)
      = has_value f || ends_with_newline (SymbolType_Name (field_type f)))
  /\ (forall definitions d indent str,
      Program_Tree indent_length SymbolType_Name (definitions ++ [d])%list indent = Text str ->
      ends_with_newline str
      = match d with
        | OfField f => has_value f || ends_with_newline (SymbolType_Name (field_type f))
        | _ => true
        end).
Proof.
  destruct Statement_Tree_complete_lines as (Hstatement & Hblock & _).
  assert (Hfunction : forall f indent,
             complete_lines (FunctionDefinition_Tree indent_length SymbolType_Name f indent)
             = true).
  { intros f indent. unfold FunctionDefinition_Tree.
    apply complete_lines_append_printed, Hblock. }
  assert (Hfield : forall f indent,
             ends_with_newline (FieldDefinition_Tree SymbolType_Name f indent)
             = has_value f || ends_with_newline (SymbolType_Name (field_type f))).
  { intros f indent. unfold FieldDefinition_Tree.
    destruct (has_value f); cbn [orb].
    - destruct (is_value_type (field_type f)); line_by_line.
    - rewrite ends_with_newline_after, <- string_app_assoc, ends_with_newline_after,
        ends_with_newline_app.
      destruct (SymbolType_Name (field_type f)); reflexivity. }
  assert (Hsome : forall f indent,
             FieldDefinition_Tree SymbolType_Name f indent <> EmptyString).
  { intros f indent. unfold FieldDefinition_Tree.
    destruct (has_value f); [destruct (is_value_type (field_type f)) | ];
      repeat first [apply (append_not_empty_r (spaces indent) "v") | apply append_not_empty_l]. }
  split; [ | split; [ | split; [exact Hfield | ]]].
  - intros s indent str Htree. specialize (Hstatement s indent).
    rewrite Htree in Hstatement. exact Hstatement.
  - intros f indent str Htree. specialize (Hfunction f indent).
    rewrite Htree in Hfunction. exact Hfunction.
  - intros definitions d indent str. unfold Program_Tree. rewrite print_each_last.
    destruct (print_each _ definitions _) as [before | | ]; [ | discriminate | discriminate].
    destruct d as [f | f | f]; cbn [Definition_Tree append_printed].
    + intros [= <-]. rewrite ends_with_newline_app, <- (Hfield f (indent + indent_length)).
      specialize (Hsome f (indent + indent_length)).
      destruct (FieldDefinition_Tree SymbolType_Name f _); [contradiction | reflexivity].
    + intros Htree. specialize (Hfunction f (indent + indent_length)).
      destruct (FunctionDefinition_Tree _ _ f _) as [t | | ]; try discriminate Htree.
      cbn [append_printed] in Htree. injection Htree as <-.
      apply ends_with_newline_append, Hfunction.
    + intros Htree. specialize (Hfunction f (indent + indent_length)).
      destruct (FunctionDefinition_Tree _ _ f _) as [t | | ]; try discriminate Htree.
      cbn [append_printed] in Htree. injection Htree as <-.
      apply ends_with_newline_append, Hfunction.
Qed.
End CompleteLines.
